(** * Anagrams: a shallow embedding of [anagrams.py]

    The module computes, for a word and a word list, every way of
    rearranging the letters of the word and cutting the result into pieces
    that all belong to the word list.

    Conventions of the embedding.
    - A Python [str] is a list of characters ([list ascii], written [str]):
      the code points below 256, compared by code point.  Iterating a
      [str] yields strings of length one ([Py.chars]).
    - Python [int]s that are subtracted or used as slice bounds are [Z];
      counts handed to [itertools] ([r] of [permutations] and
      [combinations]) are [nat].
    - A [frozenset] of strings is a [gset str]; a [dict] is a [gmap].
    - Iterating a [frozenset] and collecting from [Pool.imap_unordered]
      happen in an order the program does not control: both are modelled by
      an arbitrary permutation, and the functions whose result depends on
      such an order are relations between the arguments and the result. *)

From Stdlib Require Import ZArith Ascii String List.
From stdpp Require Import gmap strings list sorting.

Local Open Scope Z_scope.

Abbreviation str := (list ascii).

(** Literals: [s "eat"] is the Python string ['eat']. *)
Definition s (x : string) : str := String.list_ascii_of_string x.

(** ** Built-ins *)

Module Py.

(** [str.isspace] on one character, for the code points below 256:
    TAB..CR, FS..US, SPACE, NEL and NBSP. *)
Definition isspace (c : ascii) : bool :=
  let n := N_of_ascii c in
  ((9 <=? n) && (n <=? 13) || (28 <=? n) && (n <=? 32)
   || (n =? 133) || (n =? 160))%N.

(** [str.split()] without arguments: the maximal runs of non-whitespace
    characters, in order.  [cur] is the run being read. *)
Fixpoint split_from (cur : str) (w : str) : list str :=
  match w with
  | [] => match cur with [] => [] | _ => [cur] end
  | c :: w' =>
      if isspace c
      then match cur with
           | [] => split_from [] w'
           | _ => cur :: split_from [] w'
           end
      else split_from (cur ++ [c]) w'
  end.

Definition split (w : str) : list str := split_from [] w.

(** [''.join(parts)]. *)
Definition join (parts : list str) : str := mjoin parts.

(** Order of characters: by code point. *)
Definition char_le (a b : ascii) : Prop := (N_of_ascii a <= N_of_ascii b)%N.

#[global] Instance char_le_dec a b : Decision (char_le a b).
Proof. unfold char_le. apply _. Defined.

(** Iterating a string: its characters, each a string of length one. *)
Definition chars (w : str) : list str := (λ c, [c]) <$> w.

(** [sorted(w)] on a string: its characters in ascending order.
    Characters that compare equal are identical, so the result is the
    unique ascending arrangement; it is computed here by merge sort. *)
Definition sorted (w : str) : list str := chars (merge_sort char_le w).

(** A slice bound [i] of a sequence of length [n], as Python clamps it. *)
Definition slice_index (n i : Z) : Z :=
  if i <? 0 then Z.max 0 (i + n) else Z.min i n.

(** [l[lo:hi]]; [None] is an omitted bound. *)
Definition slice {A} (l : list A) (lo hi : option Z) : list A :=
  let n := Z.of_nat (length l) in
  let a := from_option (slice_index n) 0 lo in
  let b := from_option (slice_index n) n hi in
  take (Z.to_nat (b - a)) (drop (Z.to_nat a) l).

(** [range(lo, hi)]. *)
Definition range (lo hi : Z) : list Z := seqZ lo (hi - lo).

End Py.

(** ** itertools *)

Module Itertools.

(** [combinations(l, r)]: the [r]-element subsequences of [l], in
    lexicographic order of positions. *)
Fixpoint combinations {A} (l : list A) (r : nat) : list (list A) :=
  match r with
  | O => [[]]
  | S r' =>
      match l with
      | [] => []
      | x :: l' => (cons x <$> combinations l' r') ++ combinations l' r
      end
  end.

(** Every way of taking one element out of [l], with what is left, by
    position. *)
Fixpoint picks {A} (l : list A) : list (A * list A) :=
  match l with
  | [] => []
  | x :: l' => (x, l') :: (prod_map id (cons x) <$> picks l')
  end.

(** [permutations(l, r)]: the arrangements of [r] elements of [l] taken at
    distinct positions, in lexicographic order of positions; elements are
    told apart by position, not by value. *)
Fixpoint permutations {A} (l : list A) (r : nat) : list (list A) :=
  match r with
  | O => [[]]
  | S r' => '(x, rest) ← picks l; cons x <$> permutations rest r'
  end.

(** [product] of the bins: one element of each bin, the last bin varying
    fastest. *)
Fixpoint product {A} (bins : list (list A)) : list (list A) :=
  match bins with
  | [] => [[]]
  | b :: bins' => x ← b; cons x <$> product bins'
  end.

End Itertools.

(** ** The module [anagrams] *)

(** [div_to_integer_partition(divider, word_length)]. *)
Definition div_to_integer_partition (divider : list Z) (word_length : Z)
  : list Z :=
  let augmented_divider := [0] ++ divider ++ [word_length] in
  (λ i : nat, augmented_divider !!! i - augmented_divider !!! (i - 1)%nat)
    <$> seq 1 (length augmented_divider - 1).

(** [ip_to_word_partitions(integer_partition, word_list_by_length)].
    [word_list_by_length] is a [defaultdict(list)]: reading a missing key
    gives the empty list (and stores it, which changes no later read). *)
Definition ip_to_word_partitions (integer_partition : list Z)
    (word_list_by_length : gmap Z (list str)) : list (list str) :=
  let word_choice_bins :=
    (λ j, word_list_by_length !!! j) <$> integer_partition in
  Itertools.product word_choice_bins.

(** [wp_to_comparable_form(word_partition)]. *)
Definition wp_to_comparable_form (word_partition : list str) : str :=
  Py.join (Py.sorted (Py.join word_partition)).

(** The body of the loop of [dividers_to_word_partitions]: the
    word-partition of [word] for one divider. *)
Definition div_word_partitions (word : str) (div : list Z) : list str :=
  if bool_decide (length div ≤ 0)%nat then [word]
  else
    [Py.slice word None (Some (div !!! 0%nat))]
    ++ ((λ i : nat, Py.slice word (Some (div !!! i)) (Some (div !!! S i)))
          <$> seq 0 (length div - 1))
    ++ [Py.slice word (Some (div !!! (length div - 1)%nat)) None].

(** [dividers_to_word_partitions(word, dividers)]. *)
Definition dividers_to_word_partitions (word : str) (dividers : list (list Z))
  : list (list str) :=
  div_word_partitions word <$> dividers.

(** [word_list_set.issuperset(wp)]. *)
Definition issuperset (word_list_set : gset str) (wp : list str) : Prop :=
  Forall (λ w, w ∈ word_list_set) wp.

(** [ordered_word_anagrams(word, word_list_set, dividers)]. *)
Definition ordered_word_anagrams (word : str) (word_list_set : gset str)
    (dividers : list (list Z)) : list (list str) :=
  filter (issuperset word_list_set) (dividers_to_word_partitions word dividers).

(** [div_to_anagrams(divider, word_list_by_length, word_length,
    comparable_form_of_word)]. *)
Definition div_to_anagrams (divider : list Z)
    (word_list_by_length : gmap Z (list str)) (word_length : Z)
    (comparable_form_of_word : str) : list (list str) :=
  let word_length_int_partition :=
    div_to_integer_partition divider word_length in
  let ip_word_partitions :=
    ip_to_word_partitions word_length_int_partition word_list_by_length in
  filter (λ wp, wp_to_comparable_form wp = comparable_form_of_word)
         ip_word_partitions.

(** [reduced_word_list(word, word_list)]. *)
Definition reduced_word_list (word : str) (word_list : list str) : gset str :=
  let rwls :=
    mjoin ((λ i : nat,
              let i_permutations : gset str :=
                list_to_set
                  (Py.join <$> Itertools.permutations (Py.chars word) i) in
              elements (i_permutations ∩ list_to_set word_list))
             <$> seq 1 (length word - 1)) in
  list_to_set rwls.

(** ** Collection orders the program does not control *)

(** [for x in word_list_set]: a frozenset is visited once per element, in
    an order fixed by the hashes of its elements. *)
Definition iterates (word_list_set : gset str) (order : list str) : Prop :=
  order ≡ₚ elements word_list_set.

(** [pool.imap_unordered(f, xs, chunk_size)]: the results of [f] on the
    items of [xs], each once, in the order in which the workers finish. *)
Definition imap_unordered {A B} (f : A → B) (xs : list A) (ys : list B)
  : Prop :=
  ys ≡ₚ f <$> xs.

(** ** The two strategies

    A word sequence is a [list str], whether Python builds it as a list
    (the word-centric strategy) or as a tuple (the dictionary-centric
    strategy). *)

(** [word_permutations]: every arrangement of the characters of the
    word, joined; [permutations(word)] takes all [len(word)] of them. *)
Definition word_permutations (word : str) : list str :=
  Py.join <$> Itertools.permutations (Py.chars word) (length word).

(** What [anagrams_word_centric] does for one permutation: [owas]. *)
Definition owas (word_list_set : gset str) (dividers : list (list Z))
    (word : str) : list (list str) :=
  ordered_word_anagrams word word_list_set dividers.

(** [anagrams_word_centric(word, word_list_set, dividers, nprocs)]
    returns [pop]. *)
Definition anagrams_word_centric (word : str) (word_list_set : gset str)
    (dividers : list (list Z)) (nprocs : Z) (pop : list (list str)) : Prop :=
  if bool_decide (nprocs ≤ 1)
  then pop = mjoin (owas word_list_set dividers <$> word_permutations word)
  else ∃ owag,
      imap_unordered (owas word_list_set dividers) (word_permutations word)
                     owag
      ∧ pop = mjoin owag.

(** The loop that buckets the words by length:
    [word_list_by_length[len(wl_word)].append(wl_word)]. *)
Definition bucket_by_length (order : list str) : gmap Z (list str) :=
  foldl (λ word_list_by_length wl_word,
           let n := Z.of_nat (length wl_word) in
           <[n := word_list_by_length !!! n ++ [wl_word]]> word_list_by_length)
        ∅ order.

(** What [anagrams_word_list_centric] does for one divider: [dtas]. *)
Definition dtas (word_list_by_length : gmap Z (list str)) (word : str)
    (d : list Z) : list (list str) :=
  div_to_anagrams d word_list_by_length (Z.of_nat (length word))
                  (wp_to_comparable_form [word]).

(** [anagrams_word_list_centric(word, word_list_set, dividers, nprocs)]
    returns [pop]. *)
Definition anagrams_word_list_centric (word : str) (word_list_set : gset str)
    (dividers : list (list Z)) (nprocs : Z) (pop : list (list str)) : Prop :=
  ∃ order, iterates word_list_set order ∧
    let word_list_by_length := bucket_by_length order in
    if bool_decide (nprocs ≤ 1)
    then pop = mjoin (dtas word_list_by_length word <$> dividers)
    else ∃ dtag,
        imap_unordered (dtas word_list_by_length word) dividers dtag
        ∧ pop = mjoin dtag.

(** ** The orchestrator *)

(** [k_divider_sets] and its flattening [dividers], which [word_anagrams]
    builds from [len(word)] alone. *)
Definition k_divider_sets (word_length : nat) : list (list (list Z)) :=
  (λ k : nat, Itertools.combinations (Py.range 1 (Z.of_nat word_length)) k)
    <$> seq 0 word_length.

Definition dividers_of (word_length : nat) : list (list Z) :=
  mjoin (k_divider_sets word_length).

Definition strategy : Type :=
  str → gset str → list (list Z) → Z → list (list str) → Prop.

(** The dict [anagram_methods]. *)
Definition anagram_methods : gmap string strategy :=
  {[ "word_centric"%string := anagrams_word_centric;
     "word_list_centric"%string := anagrams_word_list_centric ]}.

(** How a call ends. *)
Inductive exn : Type :=
  | KeyError (key : string).

Inductive outcome (A : Type) : Type :=
  | Return (a : A)
  | Raise (e : exn).
Arguments Return {A} a.
Arguments Raise {A} e.

(** What a call of [word_anagrams] has computed, statement by statement,
    when it ends. *)
Inductive step : Type :=
  | Normalised (word : str)
  | Reduced (word_list_set : gset str)
  | Enumerated (dividers : list (list Z))
  | Dispatched (method : string).

Record run : Type := Run {
  work : list step;
  result : outcome (list (list str))
}.

(** [word_anagrams(word, word_list, method, nprocs)] ends as [r]. *)
Definition word_anagrams (word : str) (word_list : list str)
    (method : string) (nprocs : Z) (r : run) : Prop :=
  let word := Py.join (Py.split word) in
  let word_list_set := reduced_word_list word word_list in
  let dividers := dividers_of (length word) in
  let done := [Normalised word; Reduced word_list_set; Enumerated dividers] in
  match anagram_methods !! method with
  | None => r = Run done (Raise (KeyError method))
  | Some anagram_method =>
      ∃ pop, anagram_method word word_list_set dividers nprocs pop
             ∧ r = Run (done ++ [Dispatched method]) (Return pop)
  end.

(** ** Vocabulary of the statements *)

(** A divider of a word of length [L]: strictly increasing cut positions
    inside the open interval from [0] to [L]. *)
Definition is_divider (L : Z) (d : list Z) : Prop :=
  StronglySorted Z.lt d ∧ Forall (λ x, 0 < x < L) d.

(** Differences of consecutive elements of [a :: rest]. *)
Fixpoint adjacent_differences (a : Z) (rest : list Z) : list Z :=
  match rest with
  | [] => []
  | b :: rest' => (b - a) :: adjacent_differences b rest'
  end.

(** Running sums of [l] on top of [acc]. *)
Fixpoint prefix_sums (acc : Z) (l : list Z) : list Z :=
  match l with
  | [] => []
  | x :: l' => (acc + x) :: prefix_sums (acc + x) l'
  end.

Definition sum_Z (l : list Z) : Z := foldr Z.add 0 l.

(** The cut positions read back from an integer partition: its cumulative
    sums, the last one (the total) left out. *)
Definition partition_to_div (integer_partition : list Z) : list Z :=
  removelast (prefix_sums 0 integer_partition).

(** The number of combinations of every size below [m]. *)
Definition combinations_upto {A} (l : list A) (m : nat) : nat :=
  sum_list_with (λ k, length (Itertools.combinations l k)) (seq 0 m).

(** The pieces of [word] from position [prev] on, cut at the positions
    of [d]. *)
Fixpoint pieces (word : str) (prev : Z) (d : list Z) : list str :=
  match d with
  | [] => [drop (Z.to_nat prev) word]
  | x :: d' =>
      take (Z.to_nat x - Z.to_nat prev) (drop (Z.to_nat prev) word)
        :: pieces word x d'
  end.

(** The word sequences the word-centric strategy accepts. *)
Definition word_centric_accepts (word : str) (word_list_set : gset str)
    (dividers : list (list Z)) (wp : list str) : Prop :=
  ∃ p d, p ≡ₚ word ∧ d ∈ dividers ∧ wp = div_word_partitions p d
         ∧ issuperset word_list_set wp.

(** The word sequences the dictionary-centric strategy accepts. *)
Definition word_list_centric_accepts (word : str) (word_list_set : gset str)
    (dividers : list (list Z)) (wp : list str) : Prop :=
  ∃ d, d ∈ dividers
       ∧ Forall2 (λ w n, w ∈ word_list_set ∧ Z.of_nat (length w) = n) wp
                 (div_to_integer_partition d (Z.of_nat (length word)))
       ∧ mjoin wp ≡ₚ word.

(** *** Sequential runs *)

(** What [word_anagrams] has computed before it dispatches. *)
Definition preparation (word : str) (word_list : list str) : list step :=
  [Normalised (Py.join (Py.split word));
   Reduced (reduced_word_list (Py.join (Py.split word)) word_list);
   Enumerated (dividers_of (length (Py.join (Py.split word))))].

(** The sequential word-centric run. *)
Definition word_centric_run (word : str) (word_list : list str) : run :=
  let word' := Py.join (Py.split word) in
  Run (preparation word word_list ++ [Dispatched "word_centric"])
      (Return (mjoin (owas (reduced_word_list word' word_list)
                           (dividers_of (length word'))
                        <$> word_permutations word'))).

(** The sequential dictionary-centric run that visits the reduced word
    list in the order of [elements]. *)
Definition word_list_centric_run (word : str) (word_list : list str) : run :=
  let word' := Py.join (Py.split word) in
  let order := elements (reduced_word_list word' word_list) in
  Run (preparation word word_list ++ [Dispatched "word_list_centric"])
      (Return (mjoin (dtas (bucket_by_length order) word'
                        <$> dividers_of (length word')))).

(** *** The worked example: word [eat] *)

Definition eat_word_list : list str :=
  s <$> ["eat"; "ate"; "tea"; "ea"; "at"; "e"; "a"; "t"]%string.

Definition eat_anagrams : list (list str) :=
  [ [s "e"; s "at"]; [s "ea"; s "t"]; [s "at"; s "e"]; [s "t"; s "ea"];
    [s "e"; s "a"; s "t"]; [s "e"; s "t"; s "a"]; [s "a"; s "e"; s "t"];
    [s "a"; s "t"; s "e"]; [s "t"; s "a"; s "e"]; [s "t"; s "e"; s "a"] ].

(** ** The caller [anagram_prob_01] and the output of [main] *)

(** [sep.join(parts)]. *)
Fixpoint join_sep (sep : str) (parts : list str) : str :=
  match parts with
  | [] => []
  | w :: parts' =>
      match parts' with
      | [] => w
      | _ :: _ => w ++ sep ++ join_sep sep parts'
      end
  end.

(** Order of strings: the first differing character decides, by code
    point; a proper prefix comes first. *)
Fixpoint str_le (a b : str) : Prop :=
  match a, b with
  | [], _ => True
  | _ :: _, [] => False
  | x :: a', y :: b' =>
      (N_of_ascii x < N_of_ascii y)%N ∨ (x = y ∧ str_le a' b')
  end.

#[global] Instance str_le_dec : RelDecision str_le.
Proof.
  intros a. induction a as [|x a IH]; intros [|y b]; simpl; apply _.
Defined.

(** [list.sort()] on a list of strings.  Strings that compare equal are
    identical, so the result is the unique ascending arrangement. *)
Definition sort_strings (l : list str) : list str := merge_sort str_le l.

(** What [main] writes to [out_file] for the list [word_anagrams]
    returned: every anagram joined by a space, the lines sorted, joined by
    newlines. *)
Definition main_text (anagrams : list (list str)) : str :=
  join_sep [ascii_of_nat 10]
           (sort_strings (join_sep [ascii_of_nat 32] <$> anagrams)).

(** [next(pa for pa in anagrams if len(pa) == 2, False)]: [None] stands
    for the default [False]. *)
Definition first_two_word (anagrams : list (list str)) : option (list str) :=
  head (filter (λ pa, length pa = 2%nat) anagrams).

(** [max(anagrams, key=len)]: the first of the longest elements; [None]
    stands for the [ValueError] on an empty list. *)
Definition max_by_len (anagrams : list (list str)) : option (list str) :=
  match anagrams with
  | [] => None
  | a :: anagrams' =>
      Some (foldl (λ best x,
                     if bool_decide (length best < length x)%nat
                     then x else best)
                  a anagrams')
  end.

(** How a call of [anagram_prob_01] ends. *)
Inductive prob_outcome : Type :=
  | ProbReturn (most_words two_words : str)
  | ProbRaise (e : exn)
  | ProbValueError.

(** [anagram_prob_01(word, word_list, method, nprocs)] of [example_1.py]
    ends as [res]. *)
Definition anagram_prob_01 (word : str) (word_list : list str)
    (method : string) (nprocs : Z) (res : prob_outcome) : Prop :=
  ∃ r, word_anagrams word word_list method nprocs r ∧
    match result r with
    | Raise e => res = ProbRaise e
    | Return anagrams =>
        match first_two_word anagrams with
        | Some single_two_word_anagram =>
            match max_by_len anagrams with
            | Some single_most_words_anagram =>
                res = ProbReturn
                        (join_sep [ascii_of_nat 32] single_most_words_anagram)
                        (join_sep [ascii_of_nat 32] single_two_word_anagram)
            | None => res = ProbValueError
            end
        | None => res = ProbReturn [] []
        end
    end.

(** ** More vocabulary *)

(** An anagram of [word] over [word_list], as the module's docstring
    defines it: non-empty parts, all from the word list, that together use
    the letters of the word exactly. *)
Definition is_anagram (word : str) (word_list : list str) (wp : list str)
  : Prop :=
  Forall (λ w, w ∈ word_list ∧ w ≠ []) wp ∧ mjoin wp ≡ₚ word.

(** The product of the sizes of the bins. *)
Definition product_of_sizes {A} (bins : list (list A)) : nat :=
  foldr Nat.mul 1%nat (length <$> bins).

(** * Properties *)

(** ** Built-ins *)

Section builtins.

Lemma join_chars (w : str) : Py.join (Py.chars w) = w.
Proof.
  unfold Py.join, Py.chars. induction w as [|c w IH]; [done|].
  cbn. f_equal. exact IH.
Qed.

Lemma length_chars (w : str) : length (Py.chars w) = length w.
Proof. unfold Py.chars. by rewrite length_fmap. Qed.

Lemma split_from_join (cur w : str) :
  Py.join (Py.split_from cur w) = cur ++ filter (λ c, Py.isspace c = false) w.
Proof.
  unfold Py.join. revert cur. induction w as [|c w IH]; intros cur; simpl.
  - destruct cur; simpl; by rewrite ?app_nil_r.
  - destruct (Py.isspace c) eqn:Hc.
    + rewrite filter_cons_False by congruence.
      destruct cur; simpl; rewrite IH; done.
    + rewrite filter_cons_True by done.
      rewrite IH. by rewrite <- app_assoc.
Qed.

Lemma join_split (w : str) :
  Py.join (Py.split w) = filter (λ c, Py.isspace c = false) w.
Proof. unfold Py.split. by rewrite split_from_join. Qed.

Lemma join_split_whitespace (w : str) :
  Forall (λ c, Py.isspace c = true) w → Py.join (Py.split w) = [].
Proof.
  rewrite join_split. induction 1 as [|c w Hc _ IH]; [done|].
  rewrite filter_cons_False by congruence. done.
Qed.

#[local] Instance char_le_total : Total Py.char_le.
Proof. intros a b. unfold Py.char_le. lia. Qed.

#[local] Instance char_le_trans : Transitive Py.char_le.
Proof. intros a b c. unfold Py.char_le. lia. Qed.

#[local] Instance char_le_antisym : AntiSymm (=) Py.char_le.
Proof.
  intros a b Hab Hba. unfold Py.char_le in *.
  rewrite <- (ascii_N_embedding a), <- (ascii_N_embedding b).
  f_equal. lia.
Qed.

Lemma join_sorted (w : str) :
  Py.join (Py.sorted w) = merge_sort Py.char_le w.
Proof. unfold Py.sorted. apply join_chars. Qed.

(** Sorting decides equality of letter multisets. *)
Lemma merge_sort_char_eq (v w : str) :
  merge_sort Py.char_le v = merge_sort Py.char_le w ↔ v ≡ₚ w.
Proof.
  split.
  - intros E. rewrite <- (merge_sort_Permutation Py.char_le v), E.
    apply merge_sort_Permutation.
  - intros HP. apply (Sorted_unique Py.char_le).
    + apply Sorted_merge_sort, _.
    + apply Sorted_merge_sort, _.
    + by rewrite !merge_sort_Permutation.
Qed.

Lemma slice_to {A} (l : list A) (x : Z) :
  0 ≤ x → Py.slice l None (Some x) = take (Z.to_nat x) l.
Proof.
  intros Hx. unfold Py.slice, Py.slice_index; simpl.
  destruct (Z.ltb_spec x 0); [lia|].
  rewrite Z.sub_0_r.
  destruct (Z.min_spec x (Z.of_nat (length l))) as [[? ->]|[? ->]]; [done|].
  rewrite Nat2Z.id, !firstn_all2; [done| lia |done].
Qed.

Lemma slice_from {A} (l : list A) (x : Z) :
  0 ≤ x → Py.slice l (Some x) None = drop (Z.to_nat x) l.
Proof.
  intros Hx. unfold Py.slice, Py.slice_index; simpl.
  destruct (Z.ltb_spec x 0); [lia|].
  destruct (Z.min_spec x (Z.of_nat (length l))) as [[? ->]|[? ->]].
  - apply firstn_all2. rewrite length_drop. lia.
  - rewrite Nat2Z.id. rewrite !drop_ge by lia. apply take_nil.
Qed.

Lemma slice_between {A} (l : list A) (x y : Z) :
  0 ≤ x ≤ y →
  Py.slice l (Some x) (Some y)
  = take (Z.to_nat y - Z.to_nat x) (drop (Z.to_nat x) l).
Proof.
  intros Hxy. unfold Py.slice, Py.slice_index; simpl.
  destruct (Z.ltb_spec x 0); [lia|]. destruct (Z.ltb_spec y 0); [lia|].
  destruct (Z.min_spec x (Z.of_nat (length l))) as [[? ->]|[? ->]];
    destruct (Z.min_spec y (Z.of_nat (length l))) as [[? ->]|[? ->]];
    try lia.
  - f_equal. lia.
  - rewrite (take_ge _ (Z.to_nat (_ - _))) by (rewrite length_drop; lia).
    rewrite (take_ge _ (_ - _)%nat) by (rewrite length_drop; lia). done.
  - rewrite Z.sub_diag, Nat2Z.id. simpl.
    rewrite (drop_ge _ (Z.to_nat x)) by lia. by rewrite take_nil.
Qed.

End builtins.

(** ** itertools *)

Section itertools.
Context {A : Type}.
Implicit Types (l c p : list A) (r : nat).

Import Itertools.

Lemma combinations_0 l : combinations l 0 = [[]].
Proof. by destruct l. Qed.

Lemma elem_of_combinations l r c :
  c ∈ combinations l r → c `sublist_of` l ∧ length c = r.
Proof.
  revert r c. induction l as [|x l IH]; intros [|r] c;
    rewrite ?combinations_0; simpl.
  - intros ->%list_elem_of_singleton. done.
  - by intros ?%elem_of_nil.
  - intros ->%list_elem_of_singleton. split; [apply sublist_nil_l | done].
  - rewrite elem_of_app, list_elem_of_fmap.
    intros [(c' & -> & Hc') | Hc].
    + destruct (IH _ _ Hc') as [Hs Hl]. split; [by apply sublist_skip|].
      simpl. by rewrite Hl.
    + destruct (IH _ _ Hc) as [Hs Hl]. split; [by apply sublist_cons | done].
Qed.

Lemma combinations_overflow l r :
  (length l < r)%nat → combinations l r = [].
Proof.
  revert r. induction l as [|x l IH]; intros [|r] Hr; simpl in *;
    try lia; [done|].
  rewrite !IH by lia. done.
Qed.

Lemma NoDup_combinations l r : NoDup l → NoDup (combinations l r).
Proof.
  intros Hl. revert r. induction Hl as [|x l Hx Hl IH]; intros [|r];
    rewrite ?combinations_0; simpl;
    [apply NoDup_singleton | apply NoDup_nil_2 | apply NoDup_singleton |].
  apply NoDup_app. split_and!.
  - apply NoDup_fmap_2; [|by apply IH]. by intros ?? [= ->].
  - intros c (c' & -> & _)%list_elem_of_fmap Hc.
    apply elem_of_combinations in Hc as [Hs _].
    apply Hx. eapply elem_of_sublist; [|exact Hs]. left.
  - apply IH.
Qed.

Lemma combinations_upto_S l m :
  combinations_upto l (S m)
  = (combinations_upto l m + length (combinations l m))%nat.
Proof.
  unfold combinations_upto. rewrite seq_S, sum_list_with_app. simpl. lia.
Qed.

Lemma combinations_upto_cons x l m :
  combinations_upto (x :: l) (S m)
  = (combinations_upto l m + combinations_upto l (S m))%nat.
Proof.
  unfold combinations_upto.
  rewrite <- !cons_seq, <- !fmap_S_seq.
  cbn [sum_list_with]. rewrite !combinations_0. simpl length.
  enough (∀ ks,
    sum_list_with (λ k, length (combinations (x :: l) k)) (S <$> ks)
    = (sum_list_with (λ k, length (combinations l k)) ks
       + sum_list_with (λ k, length (combinations l k)) (S <$> ks))%nat)
    as -> by lia.
  intros ks. induction ks as [|k ks IH]; [done|].
  cbn [fmap list_fmap sum_list_with]. fold (fmap (M:=list) S ks).
  rewrite IH. simpl combinations at 1.
  rewrite length_app, length_fmap. lia.
Qed.

Lemma combinations_upto_all l m :
  (length l < m)%nat → combinations_upto l m = (2 ^ length l)%nat.
Proof.
  revert m. induction l as [|x l IH]; intros [|m] Hm; simpl in *; try lia.
  - clear Hm. induction m as [|m IHm]; [done|].
    rewrite combinations_upto_S, IHm. simpl. done.
  - rewrite combinations_upto_cons, combinations_upto_S.
    rewrite combinations_overflow by lia. rewrite (IH m) by lia.
    simpl. lia.
Qed.

Lemma elem_of_picks_Permutation l x rest :
  (x, rest) ∈ picks l → l ≡ₚ x :: rest.
Proof.
  revert x rest. induction l as [|y l IH]; intros x rest; simpl.
  - by intros ?%elem_of_nil.
  - rewrite elem_of_cons, list_elem_of_fmap.
    intros [[= -> ->] | ([x' rest'] & [= -> ->] & Hin)]; [done|].
    simpl. rewrite (IH _ _ Hin). apply Permutation_swap.
Qed.

Lemma elem_of_picks_exists l x : x ∈ l → ∃ rest, (x, rest) ∈ picks l.
Proof.
  induction 1 as [x l | x y l _ [rest IH]]; simpl.
  - exists l. left.
  - exists (y :: rest). right. apply list_elem_of_fmap.
    by exists (x, rest).
Qed.

(** [permutations l r] holds exactly the lists of [r] elements taken
    from [l] without reusing a position. *)
Lemma elem_of_permutations l r p :
  p ∈ permutations l r ↔ length p = r ∧ p ⊆+ l.
Proof.
  revert l p. induction r as [|r IH]; intros l p; simpl.
  - rewrite list_elem_of_singleton. split.
    + intros ->. split; [done | apply submseteq_nil_l].
    + intros [Hl _]. by apply nil_length_inv.
  - rewrite list_elem_of_bind. split.
    + intros ([x rest] & (p' & -> & Hp')%list_elem_of_fmap & Hin).
      apply IH in Hp' as [Hl Hs].
      apply elem_of_picks_Permutation in Hin.
      split; [simpl; by rewrite Hl|].
      rewrite Hin. by apply submseteq_skip.
    + intros [Hl Hs]. destruct p as [|x p']; [done|].
      simpl in Hl. injection Hl as Hl.
      pose proof Hs as (k' & Hk & Hs')%submseteq_cons_l.
      assert (x ∈ l) as [rest Hin]%elem_of_picks_exists
        by (rewrite Hk; left).
      exists (x, rest). split; [|done].
      apply list_elem_of_fmap. exists p'. split; [done|].
      apply IH. split; [done|].
      apply elem_of_picks_Permutation in Hin.
      rewrite Hin in Hk. apply Permutation_cons_inv in Hk.
      by rewrite Hk.
Qed.

Lemma elem_of_product (bins : list (list A)) (wp : list A) :
  wp ∈ product bins ↔ Forall2 (λ w b, w ∈ b) wp bins.
Proof.
  revert wp. induction bins as [|b bins IH]; intros wp; simpl.
  - rewrite list_elem_of_singleton. split; [by intros ->|].
    by intros ->%Forall2_nil_inv_r.
  - rewrite list_elem_of_bind. split.
    + intros (x & (wp' & -> & Hwp')%list_elem_of_fmap & Hx).
      constructor; [done | by apply IH].
    + intros (x & wp' & Hx & Hwp' & ->)%Forall2_cons_inv_r.
      exists x. split; [|done]. apply list_elem_of_fmap.
      exists wp'. split; [done | by apply IH].
Qed.

Lemma NoDup_product (bins : list (list A)) :
  Forall NoDup bins → NoDup (product bins).
Proof.
  induction 1 as [|b bins Hb _ IH]; simpl; [apply NoDup_singleton|].
  apply NoDup_bind; [| |done].
  - intros x1 x2 wp _ _ (? & -> & _)%list_elem_of_fmap
      (? & [= -> _] & _)%list_elem_of_fmap. done.
  - intros x _. apply NoDup_fmap_2; [|done]. by intros ?? [= ->].
Qed.

End itertools.

(** ** Lists *)

Section lists.
Context {A B : Type}.

Lemma join_fmap_bind (f : A → list B) (l : list A) : mjoin (f <$> l) = l ≫= f.
Proof. induction l as [|x l IH]; [done|]. cbn. f_equal. exact IH. Qed.

Lemma NoDup_join_fmap (f : A → list B) (l : list A) :
  (∀ x1 x2 y, x1 ∈ l → x2 ∈ l → y ∈ f x1 → y ∈ f x2 → x1 = x2) →
  (∀ x, x ∈ l → NoDup (f x)) →
  NoDup l → NoDup (mjoin (f <$> l)).
Proof. intros H1 H2 H3. rewrite join_fmap_bind. by apply NoDup_bind. Qed.

Lemma elem_of_join_fmap (f : A → list B) (l : list A) (y : B) :
  y ∈ mjoin (f <$> l) ↔ ∃ x, x ∈ l ∧ y ∈ f x.
Proof.
  rewrite join_fmap_bind, list_elem_of_bind.
  split; intros (x & ? & ?); by exists x.
Qed.

Lemma sum_list_fmap (f : A → nat) (l : list A) :
  sum_list (f <$> l) = sum_list_with f l.
Proof. induction l as [|x l IH]; [done|]. cbn. by rewrite <- IH. Qed.

Lemma Forall_sublist (P : A → Prop) (l1 l2 : list A) :
  l1 `sublist_of` l2 → Forall P l2 → Forall P l1.
Proof.
  rewrite !Forall_forall. intros Hs H x Hx. apply H.
  by eapply elem_of_sublist.
Qed.

Lemma StronglySorted_sublist (R : relation A) (l1 l2 : list A) :
  l1 `sublist_of` l2 → StronglySorted R l2 → StronglySorted R l1.
Proof.
  induction 1 as [|x l1 l2 Hs IH|x l1 l2 Hs IH]; [done| |].
  - rewrite !StronglySorted_cons. intros [HR ?]. split; [|by apply IH].
    by eapply Forall_sublist.
  - rewrite StronglySorted_cons. intros [_ ?]. by apply IH.
Qed.

End lists.

Lemma StronglySorted_seq (start len : nat) :
  StronglySorted lt (seq start len).
Proof.
  revert start. induction len as [|len IH]; intros start; simpl.
  - constructor.
  - constructor; [apply IH|].
    apply Forall_forall. intros x Hx%elem_of_seq. lia.
Qed.

Lemma StronglySorted_seqZ (m n : Z) : StronglySorted Z.lt (seqZ m n).
Proof.
  unfold seqZ. eapply StronglySorted_fmap; [|apply StronglySorted_seq].
  intros x y. simpl. lia.
Qed.

(** ** The divider enumeration *)

Section dividers.

Lemma length_range (lo hi : Z) : length (Py.range lo hi) = Z.to_nat (hi - lo).
Proof. unfold Py.range. apply length_seqZ. Qed.

Lemma elem_of_dividers_of (L : nat) (d : list Z) :
  d ∈ dividers_of L →
  ∃ k, (k < L)%nat ∧ d ∈ Itertools.combinations (Py.range 1 (Z.of_nat L)) k.
Proof.
  unfold dividers_of, k_divider_sets.
  intros (k & ?%elem_of_seq & Hd)%elem_of_join_fmap.
  exists k. split; [lia | done].
Qed.

Lemma dividers_of_valid (L : nat) (d : list Z) :
  d ∈ dividers_of L → is_divider (Z.of_nat L) d.
Proof.
  intros (k & _ & [Hs _]%elem_of_combinations)%elem_of_dividers_of.
  split.
  - eapply StronglySorted_sublist; [exact Hs|]. apply StronglySorted_seqZ.
  - eapply Forall_sublist; [exact Hs|]. unfold Py.range.
    apply Forall_seqZ. lia.
Qed.

Lemma length_dividers_of (L : nat) :
  (1 ≤ L)%nat → length (dividers_of L) = (2 ^ (L - 1))%nat.
Proof.
  intros HL. unfold dividers_of, k_divider_sets.
  rewrite length_join, <- list_fmap_compose, sum_list_fmap.
  change (sum_list_with _ (seq 0 L))
    with (combinations_upto (Py.range 1 (Z.of_nat L)) L).
  rewrite combinations_upto_all; rewrite length_range.
  - f_equal. lia.
  - lia.
Qed.

Lemma NoDup_dividers_of (L : nat) : NoDup (dividers_of L).
Proof.
  unfold dividers_of, k_divider_sets. apply NoDup_join_fmap.
  - intros k1 k2 d _ _ [_ H1]%elem_of_combinations
      [_ H2]%elem_of_combinations. congruence.
  - intros k _. apply NoDup_combinations, NoDup_seqZ.
  - apply NoDup_seq.
Qed.

End dividers.

(** C4.  For every word length [L >= 1] the divider enumeration of
    [word_anagrams] holds exactly [2^(L-1)] tuples, no tuple twice, and
    every tuple is strictly increasing with entries strictly between [0]
    and [L]. *)
Theorem dividers_enumeration (L : nat) :
  (1 ≤ L)%nat →
  length (dividers_of L) = (2 ^ (L - 1))%nat
  ∧ NoDup (dividers_of L)
  ∧ ∀ d, d ∈ dividers_of L →
         StronglySorted Z.lt d ∧ Forall (λ x, 0 < x < Z.of_nat L) d.
Proof.
  intros HL. split_and!.
  - by apply length_dividers_of.
  - apply NoDup_dividers_of.
  - intros d Hd. by apply dividers_of_valid.
Qed.

Lemma dividers_enumeration_witness :
  (1 ≤ 4)%nat
  ∧ length (dividers_of 4) = 8%nat
  ∧ NoDup (dividers_of 4)
  ∧ ∀ d, d ∈ dividers_of 4 →
         StronglySorted Z.lt d ∧ Forall (λ x, 0 < x < 4) d.
Proof. split; [lia | apply (dividers_enumeration 4); lia]. Defined.

(** ** Dividers and integer partitions *)

Section integer_partitions.

Lemma differences_by_index (a : Z) (rest : list Z) :
  (λ i : nat, (a :: rest) !!! i - (a :: rest) !!! (i - 1)%nat)
    <$> seq 1 (length rest)
  = adjacent_differences a rest.
Proof.
  revert a. induction rest as [|b rest IH]; intros a; [done|].
  cbn [length seq fmap list_fmap adjacent_differences].
  f_equal. rewrite <- IH, <- fmap_S_seq, <- list_fmap_compose.
  apply list_fmap_ext. intros j i [-> _]%lookup_seq. simpl.
  by rewrite Nat.sub_0_r.
Qed.

Lemma div_to_integer_partition_differences (d : list Z) (L : Z) :
  div_to_integer_partition d L = adjacent_differences 0 (d ++ [L]).
Proof.
  unfold div_to_integer_partition. cbn [app length].
  replace (S (length (d ++ [L])) - 1)%nat with (length (d ++ [L])) by lia.
  apply differences_by_index.
Qed.

Lemma length_adjacent_differences (a : Z) (rest : list Z) :
  length (adjacent_differences a rest) = length rest.
Proof.
  revert a. induction rest as [|b rest IH]; intros a; simpl; [done|].
  by rewrite IH.
Qed.

Lemma length_div_to_integer_partition (d : list Z) (L : Z) :
  length (div_to_integer_partition d L) = S (length d).
Proof.
  rewrite div_to_integer_partition_differences, length_adjacent_differences.
  rewrite length_app. simpl. lia.
Qed.

Lemma prefix_sums_differences (a : Z) (rest : list Z) :
  prefix_sums a (adjacent_differences a rest) = rest.
Proof.
  revert a. induction rest as [|b rest IH]; intros a; simpl; [done|].
  replace (a + (b - a)) with b by lia. by rewrite IH.
Qed.

Lemma sum_differences (a : Z) (rest : list Z) (L : Z) :
  sum_Z (adjacent_differences a (rest ++ [L])) = L - a.
Proof.
  revert a. induction rest as [|b rest IH]; intros a; simpl; [lia|].
  fold (sum_Z (adjacent_differences b (rest ++ [L]))). rewrite IH. lia.
Qed.

Lemma differences_positive (a L : Z) (d : list Z) :
  StronglySorted Z.lt (a :: d) → Forall (λ x, x < L) (a :: d) →
  Forall (λ n, 0 < n) (adjacent_differences a (d ++ [L])).
Proof.
  revert a. induction d as [|b d IH]; intros a Hs Hb; simpl.
  - constructor; [|done]. apply Forall_cons in Hb as [? _]. lia.
  - apply StronglySorted_cons in Hs as [Hab Hs].
    apply Forall_cons in Hb as [_ Hb].
    constructor; [|by apply IH].
    apply Forall_cons in Hab as [? _]. lia.
Qed.

(** The integer partition determines the divider. *)
Lemma partition_to_div_to_integer_partition (d : list Z) (L : Z) :
  partition_to_div (div_to_integer_partition d L) = d.
Proof.
  unfold partition_to_div.
  rewrite div_to_integer_partition_differences, prefix_sums_differences.
  apply removelast_last.
Qed.

Lemma div_to_integer_partition_inj (L : Z) (d1 d2 : list Z) :
  div_to_integer_partition d1 L = div_to_integer_partition d2 L → d1 = d2.
Proof.
  intros E. rewrite <- (partition_to_div_to_integer_partition d1 L), E.
  apply partition_to_div_to_integer_partition.
Qed.

End integer_partitions.

(** C5, as the code has it.  For every length [L] and every strictly
    increasing divider [d] with entries strictly between [0] and [L], the
    entries of [div_to_integer_partition d L] sum to [L] and their
    cumulative sums, the last one left out, give [d] back; the entries are
    all positive as soon as [L >= 1]. *)
Theorem div_to_integer_partition_roundtrip (L : Z) (d : list Z) :
  StronglySorted Z.lt d → Forall (λ x, 0 < x < L) d →
  sum_Z (div_to_integer_partition d L) = L
  ∧ partition_to_div (div_to_integer_partition d L) = d
  ∧ (1 ≤ L → Forall (λ n, 0 < n) (div_to_integer_partition d L)).
Proof.
  intros Hs Hb. split_and!.
  - rewrite div_to_integer_partition_differences, sum_differences. lia.
  - apply partition_to_div_to_integer_partition.
  - intros HL. rewrite div_to_integer_partition_differences.
    apply differences_positive.
    + constructor; [done|]. eapply Forall_impl; [exact Hb|]. simpl. lia.
    + constructor; [lia|]. eapply Forall_impl; [exact Hb|]. simpl. lia.
Qed.

Lemma div_to_integer_partition_roundtrip_witness :
  sum_Z (div_to_integer_partition [1; 3; 4] 6) = 6
  ∧ partition_to_div (div_to_integer_partition [1; 3; 4] 6) = [1; 3; 4]
  ∧ (1 ≤ 6 → Forall (λ n, 0 < n) (div_to_integer_partition [1; 3; 4] 6)).
Proof.
  apply (div_to_integer_partition_roundtrip 6 [1; 3; 4]).
  - repeat constructor.
  - repeat constructor.
Defined.

(** C5 as stated fails for the empty word: the only divider of length
    [0] is the empty one, and its integer partition is [(0,)], whose entry
    is not positive. *)
Lemma div_to_integer_partition_not_positive :
  StronglySorted Z.lt [] ∧ Forall (λ x, 0 < x < 0) []
  ∧ div_to_integer_partition [] 0 = [0]
  ∧ ¬ Forall (λ n, 0 < n) (div_to_integer_partition [] 0).
Proof.
  split_and!; [constructor | constructor | reflexivity |].
  intros H. change (div_to_integer_partition [] 0) with [0] in H.
  apply Forall_cons in H as [? _]. lia.
Qed.

(** ** The comparable form *)

Section comparable_form.

Lemma wp_to_comparable_form_sort (wp : list str) :
  wp_to_comparable_form wp = merge_sort Py.char_le (mjoin wp).
Proof. unfold wp_to_comparable_form. by rewrite join_sorted. Qed.

Lemma wp_to_comparable_form_eq (s1 s2 : list str) :
  wp_to_comparable_form s1 = wp_to_comparable_form s2 ↔ mjoin s1 ≡ₚ mjoin s2.
Proof. rewrite !wp_to_comparable_form_sort. apply merge_sort_char_eq. Qed.

Lemma join_Forall2_Permutation (s1 s2 : list str) :
  Forall2 Permutation s1 s2 → mjoin s1 ≡ₚ mjoin s2.
Proof.
  induction 1 as [|w1 w2 s1 s2 Hw _ IH]; [done|].
  cbn. by rewrite Hw, IH.
Qed.

End comparable_form.

(** C6.  [wp_to_comparable_form] does not change when the elements of a
    word sequence are reordered, nor when the characters inside the
    elements are reordered; and two word sequences have the same
    comparable form exactly when the characters of all their elements,
    taken together, form the same multiset. *)
Theorem wp_to_comparable_form_canonical (s1 s2 : list str) :
  (s1 ≡ₚ s2 → wp_to_comparable_form s1 = wp_to_comparable_form s2)
  ∧ (Forall2 Permutation s1 s2 →
     wp_to_comparable_form s1 = wp_to_comparable_form s2)
  ∧ (wp_to_comparable_form s1 = wp_to_comparable_form s2
     ↔ mjoin s1 ≡ₚ mjoin s2).
Proof.
  split_and!.
  - intros HP. apply wp_to_comparable_form_eq. by rewrite HP.
  - intros HF. by apply wp_to_comparable_form_eq, join_Forall2_Permutation.
  - apply wp_to_comparable_form_eq.
Qed.

Lemma wp_to_comparable_form_canonical_witness :
  wp_to_comparable_form [s "ea"; s "t"] = wp_to_comparable_form [s "t"; s "ea"].
Proof.
  apply (proj1 (wp_to_comparable_form_canonical
                  [s "ea"; s "t"] [s "t"; s "ea"])).
  apply perm_swap.
Defined.

Example wp_to_comparable_form_eat :
  wp_to_comparable_form [s "t"; s "ea"] = s "aet".
Proof. reflexivity. Qed.

(** ** The reduced word list *)

Section reduced.

Lemma submseteq_fmap_inv {A B} (f : A → B) (k : list B) (l : list A) :
  k ⊆+ f <$> l → ∃ l', k = f <$> l' ∧ l' ⊆+ l.
Proof.
  intros H. remember (f <$> l) as fl eqn:E. revert l E.
  induction H as [|y k1 k2 _ IH|y1 y2 k|y k1 k2 _ IH|k1 k2 k3 _ IH1 _ IH2];
    intros l E.
  - exists []. split; [done | apply submseteq_nil_l].
  - symmetry in E. apply fmap_cons_inv in E as (x & l0 & -> & -> & ->).
    destruct (IH l0 eq_refl) as (l' & -> & Hl').
    exists (x :: l'). split; [done | by apply submseteq_skip].
  - symmetry in E. apply fmap_cons_inv in E as (x1 & l0 & -> & E & ->).
    symmetry in E. apply fmap_cons_inv in E as (x2 & l1 & -> & -> & ->).
    exists (x2 :: x1 :: l1). split; [done | apply submseteq_swap].
  - symmetry in E. apply fmap_cons_inv in E as (x & l0 & -> & -> & ->).
    destruct (IH l0 eq_refl) as (l' & -> & Hl').
    exists l'. split; [done | by apply submseteq_cons].
  - destruct (IH2 l E) as (l2 & -> & Hl2).
    destruct (IH1 l2 eq_refl) as (l1 & -> & Hl1).
    exists l1. split; [done | by etrans].
Qed.

(** The joined [i]-permutations of a word are the strings of length [i]
    whose letters, with multiplicity, are among those of the word. *)
Lemma elem_of_joined_permutations (word w : str) (i : nat) :
  w ∈ Py.join <$> Itertools.permutations (Py.chars word) i
  ↔ length w = i ∧ w ⊆+ word.
Proof.
  rewrite list_elem_of_fmap. split.
  - intros (p & -> & [Hl Hs]%elem_of_permutations).
    apply submseteq_fmap_inv in Hs as (v & -> & Hv).
    fold (Py.chars v) in *. rewrite join_chars.
    by rewrite length_chars in Hl.
  - intros [Hl Hs]. exists (Py.chars w). split; [by rewrite join_chars|].
    apply elem_of_permutations. rewrite length_chars. split; [done|].
    unfold Py.chars. by apply fmap_submseteq.
Qed.

Lemma elem_of_reduced_word_list (word : str) (word_list : list str) (w : str) :
  w ∈ reduced_word_list word word_list
  ↔ w ∈ word_list
    ∧ (1 ≤ length w ≤ length word - 1)%nat
    ∧ w ⊆+ word.
Proof.
  unfold reduced_word_list.
  rewrite elem_of_list_to_set, elem_of_join_fmap. split.
  - intros (i & Hi%elem_of_seq & Hw).
    apply elem_of_elements, elem_of_intersection in Hw as [Hp Hw].
    apply elem_of_list_to_set in Hw.
    apply elem_of_list_to_set, elem_of_joined_permutations in Hp as [Hl Hs].
    split_and!; [done | lia | lia | done].
  - intros (Hw & Hl & Hs). exists (length w). split.
    + apply elem_of_seq. lia.
    + apply elem_of_elements, elem_of_intersection. split.
      * by apply elem_of_list_to_set, elem_of_joined_permutations.
      * by apply elem_of_list_to_set.
Qed.

End reduced.

(** C7.  For every word of length [L] and every word list,
    [reduced_word_list] returns exactly the set of the entries of the word
    list whose length is between [1] and [L-1] and whose letters, counted
    with multiplicity, are among the letters of the word; entries of
    length [0], of length [L] or longer are not in it. *)
Theorem reduced_word_list_spec (word : str) (word_list : list str) :
  (∀ w, w ∈ reduced_word_list word word_list
        ↔ w ∈ word_list
          ∧ (1 ≤ length w ≤ length word - 1)%nat
          ∧ w ⊆+ word)
  ∧ (∀ w, w ∈ reduced_word_list word word_list →
          length w ≠ 0%nat ∧ (length w < length word)%nat).
Proof.
  split.
  - apply elem_of_reduced_word_list.
  - intros w (_ & Hl & _)%elem_of_reduced_word_list. lia.
Qed.

Lemma reduced_word_list_spec_witness :
  s "ea" ∈ reduced_word_list (s "eat") [s "eat"; s "ea"]
  ∧ s "eat" ∉ reduced_word_list (s "eat") [s "eat"; s "ea"].
Proof.
  split.
  - apply (proj1 (reduced_word_list_spec (s "eat") [s "eat"; s "ea"])).
    split_and!; [by right; left | simpl; lia | simpl; lia |].
    vm_compute. do 2 apply submseteq_skip. apply submseteq_nil_l.
  - intros H.
    apply (proj2 (reduced_word_list_spec (s "eat") [s "eat"; s "ea"])) in H.
    simpl in H. lia.
Defined.

Example reduced_word_list_eat :
  reduced_word_list (s "eat")
    (s <$> ["eat"; "ate"; "tea"; "ea"; "at"; "e"; "a"; "t"]%string)
  = list_to_set (s <$> ["e"; "a"; "t"; "ea"; "at"]%string).
Proof. vm_compute. reflexivity. Qed.

(** ** Cutting a word at a divider *)

Section cutting.

Lemma later_pieces (word : str) (x : Z) (d : list Z) :
  0 ≤ x → StronglySorted Z.lt (x :: d) →
  ((λ i : nat, Py.slice word (Some ((x :: d) !!! i)) (Some ((x :: d) !!! S i)))
     <$> seq 0 (length d))
  ++ [Py.slice word (Some ((x :: d) !!! length d)) None]
  = pieces word x d.
Proof.
  revert x. induction d as [|y d IH]; intros x Hx Hs.
  - simpl. by rewrite slice_from.
  - apply StronglySorted_cons in Hs as [Hxy Hs].
    pose proof Hxy as [Hlt _]%Forall_cons.
    cbn [length seq fmap list_fmap app pieces]. f_equal.
    + change ((x :: y :: d) !!! 0%nat) with x.
      change ((x :: y :: d) !!! 1%nat) with y.
      apply slice_between. lia.
    + rewrite <- (IH y) by (done || lia).
      rewrite <- fmap_S_seq, <- list_fmap_compose. done.
Qed.

Lemma div_word_partitions_pieces (word : str) (d : list Z) :
  StronglySorted Z.lt d → Forall (λ x, 0 < x) d →
  div_word_partitions word d = pieces word 0 d.
Proof.
  intros Hs Hp. unfold div_word_partitions. destruct d as [|x d].
  - done.
  - rewrite bool_decide_eq_false_2 by (simpl; lia).
    apply Forall_cons in Hp as [Hx _].
    cbn [length pieces app]. f_equal.
    + change ((x :: d) !!! 0%nat) with x. rewrite slice_to by lia.
      simpl. by rewrite Nat.sub_0_r.
    + replace (S (length d) - 1)%nat with (length d) by lia.
      apply later_pieces; [lia | done].
Qed.

Lemma length_pieces (word : str) (prev : Z) (d : list Z) :
  length (pieces word prev d) = S (length d).
Proof.
  revert prev. induction d as [|x d IH]; intros prev; simpl; [done|].
  by rewrite IH.
Qed.

Lemma join_pieces (word : str) (prev : Z) (d : list Z) :
  0 ≤ prev → StronglySorted Z.lt (prev :: d) →
  mjoin (pieces word prev d) = drop (Z.to_nat prev) word.
Proof.
  revert prev. induction d as [|x d IH]; intros prev Hp Hs; simpl.
  - apply app_nil_r.
  - apply StronglySorted_cons in Hs as [Hlt Hs].
    pose proof Hlt as [Hx _]%Forall_cons.
    rewrite IH by (done || lia).
    replace (Z.to_nat x) with (Z.to_nat prev + (Z.to_nat x - Z.to_nat prev))%nat
      at 2 by lia.
    rewrite <- drop_drop. apply take_drop.
Qed.

Lemma lengths_pieces (word : str) (prev : Z) (d : list Z) :
  0 ≤ prev → StronglySorted Z.lt (prev :: d) →
  Forall (λ x, x ≤ Z.of_nat (length word)) (prev :: d) →
  (λ w, Z.of_nat (length w)) <$> pieces word prev d
  = adjacent_differences prev (d ++ [Z.of_nat (length word)]).
Proof.
  revert prev. induction d as [|x d IH]; intros prev Hp Hs Hb; simpl.
  - apply Forall_cons in Hb as [Hb _]. rewrite length_drop. f_equal. lia.
  - apply StronglySorted_cons in Hs as [Hlt Hs].
    pose proof Hlt as [Hx _]%Forall_cons.
    apply Forall_cons in Hb as [_ Hb].
    pose proof Hb as [Hx' _]%Forall_cons.
    rewrite IH by (done || lia). f_equal.
    rewrite length_take, length_drop. lia.
Qed.

Lemma pieces_join (L : Z) (d : list Z) (prev : Z) (pre : str)
    (wp : list str) :
  0 ≤ prev → length pre = Z.to_nat prev →
  (λ w, Z.of_nat (length w)) <$> wp = adjacent_differences prev (d ++ [L]) →
  pieces (pre ++ mjoin wp) prev d = wp.
Proof.
  revert prev pre wp. induction d as [|x d IH]; intros prev pre wp Hp Hpre E.
  - destruct wp as [|w [|??]]; try done. cbn.
    by rewrite <- Hpre, drop_app_length, app_nil_r.
  - destruct wp as [|w wp]; [done|]. cbn in E. injection E as Hw E.
    cbn [pieces mjoin list_join]. f_equal.
    + rewrite <- Hpre, drop_app_length.
      replace (Z.to_nat x - length pre)%nat with (length w) by lia.
      by rewrite take_app_length.
    + change (w ++ mjoin wp) with (w ++ mjoin wp).
      rewrite app_assoc. apply IH; [lia | | done].
      rewrite length_app. lia.
Qed.

(** Cutting at a divider of the word's own length keeps every letter in
    place and gives parts of the lengths of the integer partition. *)
Lemma div_word_partitions_join (p : str) (d : list Z) :
  is_divider (Z.of_nat (length p)) d → mjoin (div_word_partitions p d) = p.
Proof.
  intros [Hs Hb].
  rewrite div_word_partitions_pieces;
    [|done | eapply Forall_impl; [exact Hb | simpl; lia]].
  rewrite join_pieces; [done | done |].
  constructor; [done|]. eapply Forall_impl; [exact Hb | simpl; lia].
Qed.

Lemma div_word_partitions_lengths (p : str) (d : list Z) :
  is_divider (Z.of_nat (length p)) d →
  (λ w, Z.of_nat (length w)) <$> div_word_partitions p d
  = div_to_integer_partition d (Z.of_nat (length p)).
Proof.
  intros [Hs Hb].
  rewrite div_word_partitions_pieces;
    [|done | eapply Forall_impl; [exact Hb | simpl; lia]].
  rewrite div_to_integer_partition_differences.
  apply lengths_pieces; [done | |].
  - constructor; [done|]. eapply Forall_impl; [exact Hb | simpl; lia].
  - constructor; [lia|]. eapply Forall_impl; [exact Hb | simpl; lia].
Qed.

Lemma div_word_partitions_of_join (L : Z) (d : list Z) (wp : list str) :
  StronglySorted Z.lt d → Forall (λ x, 0 < x) d →
  (λ w, Z.of_nat (length w)) <$> wp = div_to_integer_partition d L →
  div_word_partitions (mjoin wp) d = wp.
Proof.
  intros Hs Hp E. rewrite div_word_partitions_pieces by done.
  rewrite div_to_integer_partition_differences in E.
  by apply (pieces_join L d 0 []).
Qed.

End cutting.

(** ** What the strategies return *)

Section strategies.
Implicit Types (word p w : str) (wp : list str) (wls : gset str)
  (ds : list (list Z)) (pop : list (list str)) (nprocs : Z).

Lemma elem_of_word_permutations word p :
  p ∈ word_permutations word ↔ p ≡ₚ word.
Proof.
  unfold word_permutations. rewrite elem_of_joined_permutations. split.
  - intros [Hl Hs]. apply submseteq_length_Permutation; [done | lia].
  - intros HP. split; [by rewrite HP | by apply Permutation_submseteq].
Qed.

Lemma elem_of_owas wls ds p wp :
  wp ∈ owas wls ds p
  ↔ (∃ d, d ∈ ds ∧ wp = div_word_partitions p d) ∧ issuperset wls wp.
Proof.
  unfold owas, ordered_word_anagrams, dividers_to_word_partitions.
  rewrite list_elem_of_filter, list_elem_of_fmap.
  split.
  - intros [Hw (d & -> & Hd)]. split; [by exists d | done].
  - intros [(d & Hd & ->) Hw]. split; [done | by exists d].
Qed.

(** Every run of the word-centric strategy returns, up to order, what the
    sequential run returns. *)
Lemma anagrams_word_centric_Permutation word wls ds nprocs pop :
  anagrams_word_centric word wls ds nprocs pop →
  pop ≡ₚ mjoin (owas wls ds <$> word_permutations word).
Proof.
  unfold anagrams_word_centric, imap_unordered. case_bool_decide.
  - by intros ->.
  - intros (owag & HP & ->). by rewrite HP.
Qed.

Lemma anagrams_word_centric_total word wls ds nprocs :
  ∃ pop, anagrams_word_centric word wls ds nprocs pop.
Proof.
  eexists. unfold anagrams_word_centric, imap_unordered. case_bool_decide.
  - reflexivity.
  - eexists. split; reflexivity.
Qed.

Lemma elem_of_anagrams_word_centric word wls ds nprocs pop wp :
  anagrams_word_centric word wls ds nprocs pop →
  wp ∈ pop ↔ word_centric_accepts word wls ds wp.
Proof.
  intros ->%anagrams_word_centric_Permutation.
  rewrite elem_of_join_fmap. unfold word_centric_accepts. split.
  - intros (p & Hp%elem_of_word_permutations
              & [(d & Hd & ->) Hw]%elem_of_owas).
    by exists p, d.
  - intros (p & d & Hp & Hd & -> & Hw). exists p. split.
    + by apply elem_of_word_permutations.
    + apply elem_of_owas. split; [by exists d | done].
Qed.

Lemma bucket_by_length_lookup (order : list str) (j : Z) :
  bucket_by_length order !!! j
  = filter (λ w, Z.of_nat (length w) = j) order.
Proof.
  unfold bucket_by_length.
  induction order as [|w order IH] using rev_ind; [done|].
  rewrite foldl_snoc, filter_app. cbn beta zeta.
  destruct (decide (Z.of_nat (length w) = j)) as [E|Hne].
  - rewrite E, lookup_total_insert_eq, IH.
    rewrite filter_cons_True by done. by rewrite filter_nil.
  - rewrite lookup_total_insert_ne, IH by done.
    rewrite filter_cons_False by done. by rewrite filter_nil, app_nil_r.
Qed.

Lemma elem_of_bucket wls (order : list str) (j : Z) w :
  iterates wls order →
  w ∈ bucket_by_length order !!! j ↔ w ∈ wls ∧ Z.of_nat (length w) = j.
Proof.
  unfold iterates. intros HP.
  rewrite bucket_by_length_lookup, list_elem_of_filter, HP, elem_of_elements.
  tauto.
Qed.

Lemma NoDup_bucket wls (order : list str) (j : Z) :
  iterates wls order → NoDup (bucket_by_length order !!! j).
Proof.
  unfold iterates. intros HP. rewrite bucket_by_length_lookup.
  apply NoDup_filter. rewrite HP. apply NoDup_elements.
Qed.

Lemma elem_of_dtas wls (order : list str) word (d : list Z) wp :
  iterates wls order →
  wp ∈ dtas (bucket_by_length order) word d
  ↔ Forall2 (λ w n, w ∈ wls ∧ Z.of_nat (length w) = n) wp
            (div_to_integer_partition d (Z.of_nat (length word)))
    ∧ mjoin wp ≡ₚ word.
Proof.
  intros Ho. unfold dtas, div_to_anagrams, ip_to_word_partitions.
  rewrite list_elem_of_filter, elem_of_product, Forall2_fmap_r.
  rewrite wp_to_comparable_form_eq. cbn [mjoin list_join].
  rewrite app_nil_r.
  split.
  - intros [HP HF]. split; [|done].
    eapply Forall2_impl; [exact HF|]. intros w n. unfold compose.
    by rewrite (elem_of_bucket wls).
  - intros [HF HP]. split; [done|].
    eapply Forall2_impl; [exact HF|]. intros w n. unfold compose.
    by rewrite (elem_of_bucket wls).
Qed.

(** Every run of the dictionary-centric strategy returns, up to order,
    what the sequential run returns for the order in which it visited the
    set. *)
Lemma anagrams_word_list_centric_Permutation word wls ds nprocs pop :
  anagrams_word_list_centric word wls ds nprocs pop →
  ∃ order, iterates wls order
           ∧ pop ≡ₚ mjoin (dtas (bucket_by_length order) word <$> ds).
Proof.
  unfold anagrams_word_list_centric, imap_unordered.
  intros (order & Ho & H). exists order. split; [done|].
  revert H. cbv zeta. case_bool_decide.
  - by intros ->.
  - intros (dtag & HP & ->). by rewrite HP.
Qed.

Lemma anagrams_word_list_centric_total word wls ds nprocs :
  ∃ pop, anagrams_word_list_centric word wls ds nprocs pop.
Proof.
  eexists. exists (elements wls). split; [by unfold iterates|].
  cbv zeta. unfold imap_unordered. case_bool_decide.
  - reflexivity.
  - eexists. split; reflexivity.
Qed.

Lemma elem_of_anagrams_word_list_centric word wls ds nprocs pop wp :
  anagrams_word_list_centric word wls ds nprocs pop →
  wp ∈ pop ↔ word_list_centric_accepts word wls ds wp.
Proof.
  intros (order & Ho & ->)%anagrams_word_list_centric_Permutation.
  rewrite elem_of_join_fmap. unfold word_list_centric_accepts.
  split; intros (d & H); exists d;
    rewrite (elem_of_dtas wls) in * by done; tauto.
Qed.

Lemma Forall2_member_length wls wp (ns : list Z) :
  Forall2 (λ w n, w ∈ wls ∧ Z.of_nat (length w) = n) wp ns
  ↔ issuperset wls wp ∧ (λ w, Z.of_nat (length w)) <$> wp = ns.
Proof.
  unfold issuperset. split.
  - induction 1 as [|w n wp ns [Hw Hn] _ [IH1 IH2]]; [done|].
    split; [by constructor | cbn; congruence].
  - intros [Hw <-]. induction Hw as [|w wp Hw _ IH]; by constructor.
Qed.

(** On dividers of the word's length the two strategies accept the same
    word sequences. *)
Lemma accepts_iff word wls ds wp :
  Forall (is_divider (Z.of_nat (length word))) ds →
  word_centric_accepts word wls ds wp
  ↔ word_list_centric_accepts word wls ds wp.
Proof.
  intros Hds. split.
  - intros (p & d & Hp & Hd & -> & Hw). exists d.
    pose proof (proj1 (Forall_forall _ _) Hds d Hd) as Hv.
    rewrite <- (Permutation_length Hp) in Hv |- *.
    split_and!; [done | | by rewrite div_word_partitions_join].
    apply Forall2_member_length. split; [done|].
    by apply div_word_partitions_lengths.
  - intros (d & Hd & [Hw Hl]%Forall2_member_length & HP).
    exists (mjoin wp), d.
    pose proof (proj1 (Forall_forall _ _) Hds d Hd) as [Hs Hb].
    split_and!; [done | done | | done].
    symmetry. apply (div_word_partitions_of_join (Z.of_nat (length word)));
      [done | eapply Forall_impl; [exact Hb | simpl; lia] | done].
Qed.

End strategies.

(** ** The orchestrator *)

Section orchestrator.
Implicit Types (word w : str) (word_list : list str) (wp : list str)
  (wls : gset str) (pop : list (list str)) (method : string) (nprocs : Z)
  (r : run).

Lemma anagram_methods_lookup method :
  anagram_methods !! method
  = if decide (method = "word_centric"%string)
    then Some anagrams_word_centric
    else if decide (method = "word_list_centric"%string)
         then Some anagrams_word_list_centric
         else None.
Proof.
  unfold anagram_methods.
  destruct (decide (method = "word_centric"%string)) as [->|H1].
  - by rewrite lookup_insert_eq.
  - rewrite lookup_insert_ne by done.
    destruct (decide (method = "word_list_centric"%string)) as [->|H2].
    + by rewrite lookup_singleton_eq.
    + by rewrite lookup_singleton_ne.
Qed.

(** The ways a call of [word_anagrams] can end. *)
Lemma word_anagrams_inv word word_list method nprocs r :
  word_anagrams word word_list method nprocs r →
  let word' := Py.join (Py.split word) in
  let wls := reduced_word_list word' word_list in
  let ds := dividers_of (length word') in
  (method = "word_centric"%string
   ∧ ∃ pop, anagrams_word_centric word' wls ds nprocs pop
            ∧ r = Run [Normalised word'; Reduced wls; Enumerated ds;
                       Dispatched method]
                      (Return pop))
  ∨ (method = "word_list_centric"%string
     ∧ ∃ pop, anagrams_word_list_centric word' wls ds nprocs pop
              ∧ r = Run [Normalised word'; Reduced wls; Enumerated ds;
                         Dispatched method]
                        (Return pop))
  ∨ (method ≠ "word_centric"%string ∧ method ≠ "word_list_centric"%string
     ∧ r = Run [Normalised word'; Reduced wls; Enumerated ds]
               (Raise (KeyError method))).
Proof.
  unfold word_anagrams. rewrite anagram_methods_lookup. cbv zeta.
  destruct (decide (method = "word_centric"%string)) as [->|H1];
    [by left|].
  destruct (decide (method = "word_list_centric"%string)) as [->|H2];
    [by right; left|].
  intros ->. by right; right.
Qed.

Lemma word_anagrams_total word word_list method nprocs :
  ∃ r, word_anagrams word word_list method nprocs r.
Proof.
  unfold word_anagrams. rewrite anagram_methods_lookup. cbv zeta.
  repeat case_decide.
  - edestruct anagrams_word_centric_total as [pop Hpop].
    eexists. exists pop. split; [exact Hpop | reflexivity].
  - edestruct anagrams_word_list_centric_total as [pop Hpop].
    eexists. exists pop. split; [exact Hpop | reflexivity].
  - eexists. reflexivity.
Qed.

Lemma dividers_of_Forall (L : nat) :
  Forall (is_divider (Z.of_nat L)) (dividers_of L).
Proof. apply Forall_forall. intros d. apply dividers_of_valid. Qed.

(** Whatever the strategy, a returned word sequence is made of words of
    the set it was given and uses the letters of the word exactly. *)
Lemma strategy_output word wls nprocs pop wp :
  anagrams_word_centric word wls (dividers_of (length word)) nprocs pop
  ∨ anagrams_word_list_centric word wls (dividers_of (length word)) nprocs pop →
  wp ∈ pop →
  word_list_centric_accepts word wls (dividers_of (length word)) wp.
Proof.
  intros [H|H] Hwp.
  - apply accepts_iff; [apply dividers_of_Forall|].
    by apply (elem_of_anagrams_word_centric _ _ _ _ _ _ H).
  - by apply (elem_of_anagrams_word_list_centric _ _ _ _ _ _ H).
Qed.

Lemma accepted_not_single word word_list wp :
  word_list_centric_accepts word (reduced_word_list word word_list)
    (dividers_of (length word)) wp →
  length wp ≠ 1%nat.
Proof.
  intros (d & _ & [Hw _]%Forall2_member_length & HP) Hl.
  destruct wp as [|w [|??]]; try done.
  apply Forall_cons in Hw as [Hw _].
  apply elem_of_reduced_word_list in Hw as (_ & Hlen & _).
  apply Permutation_length in HP. cbn in HP.
  rewrite app_nil_r in HP. lia.
Qed.

End orchestrator.

(** ** Main results on the strategies and the orchestrator *)

(** C1.  For every word and every dictionary, the word-centric and the
    dictionary-centric strategy, run sequentially ([nprocs <= 1]) on the
    reduced word list and the dividers of the word, both return, and they
    return the same set of word sequences. *)
Theorem strategies_agree (word : str) (word_list : list str) (nprocs : Z) :
  nprocs ≤ 1 →
  (∃ pop, anagrams_word_centric word (reduced_word_list word word_list)
            (dividers_of (length word)) nprocs pop)
  ∧ (∃ pop, anagrams_word_list_centric word (reduced_word_list word word_list)
              (dividers_of (length word)) nprocs pop)
  ∧ ∀ pop1 pop2,
      anagrams_word_centric word (reduced_word_list word word_list)
        (dividers_of (length word)) nprocs pop1 →
      anagrams_word_list_centric word (reduced_word_list word word_list)
        (dividers_of (length word)) nprocs pop2 →
      list_to_set pop1 =@{gset (list str)} list_to_set pop2.
Proof.
  intros _. split_and!.
  - apply anagrams_word_centric_total.
  - apply anagrams_word_list_centric_total.
  - intros pop1 pop2 H1 H2. apply set_eq. intros wp.
    rewrite !elem_of_list_to_set.
    rewrite (elem_of_anagrams_word_centric _ _ _ _ _ _ H1).
    rewrite (elem_of_anagrams_word_list_centric _ _ _ _ _ _ H2).
    apply accepts_iff, dividers_of_Forall.
Qed.

(** C10.  For every word and every set of words, the list that
    [anagrams_word_list_centric] returns with [nprocs <= 1] on the dividers
    of the word holds no word sequence twice. *)
Theorem word_list_centric_NoDup (word : str) (word_list_set : gset str)
    (nprocs : Z) :
  nprocs ≤ 1 →
  (∃ pop, anagrams_word_list_centric word word_list_set
            (dividers_of (length word)) nprocs pop)
  ∧ ∀ pop, anagrams_word_list_centric word word_list_set
             (dividers_of (length word)) nprocs pop →
           NoDup pop.
Proof.
  intros _. split; [apply anagrams_word_list_centric_total|].
  intros pop (order & Ho & ->)%anagrams_word_list_centric_Permutation.
  apply NoDup_join_fmap.
  - intros d1 d2 wp _ _
      [[_ E1]%Forall2_member_length _]%(elem_of_dtas word_list_set)
      [[_ E2]%Forall2_member_length _]%(elem_of_dtas word_list_set);
      [|done..].
    apply (div_to_integer_partition_inj (Z.of_nat (length word))).
    congruence.
  - intros d _. unfold dtas, div_to_anagrams, ip_to_word_partitions.
    apply NoDup_filter, NoDup_product, Forall_fmap, Forall_forall.
    intros j _. by apply (NoDup_bucket word_list_set).
  - apply NoDup_dividers_of.
Qed.

(** C2.  Whatever the word, the dictionary, the strategy and the number
    of processes, [word_anagrams] returns no word sequence of one element;
    so no dictionary entry, not even an anagram of the whole word, comes
    back as a one-word answer. *)
Theorem word_anagrams_no_single (word : str) (word_list : list str)
    (method : string) (nprocs : Z) :
  (∃ r, word_anagrams word word_list method nprocs r)
  ∧ ∀ r pop,
      word_anagrams word word_list method nprocs r →
      result r = Return pop →
      (∀ wp, wp ∈ pop → length wp ≠ 1%nat) ∧ (∀ w, [w] ∉ pop).
Proof.
  split; [apply word_anagrams_total|].
  intros r pop Hr Hres.
  assert (∀ wp, wp ∈ pop → length wp ≠ 1%nat) as Hno.
  { intros wp Hwp. apply word_anagrams_inv in Hr. cbv zeta in Hr.
    destruct Hr as [(_ & pop' & Hrun & ->)
                   |[(_ & pop' & Hrun & ->)|(_ & _ & ->)]];
      simpl in Hres; try done; injection Hres as ->.
    - eapply accepted_not_single, strategy_output; [by left | done].
    - eapply accepted_not_single, strategy_output; [by right | done].  }
  split; [done|]. intros w Hw. by apply (Hno [w]).
Qed.

(** ** Sequential runs *)

Section sequential_runs.

Lemma word_anagrams_word_centric_run word word_list nprocs :
  nprocs ≤ 1 →
  word_anagrams word word_list "word_centric" nprocs
                (word_centric_run word word_list).
Proof.
  intros Hn. unfold word_anagrams. rewrite anagram_methods_lookup.
  rewrite decide_True by done. cbv zeta.
  eexists. split; [|reflexivity].
  unfold anagrams_word_centric. by rewrite bool_decide_eq_true_2.
Qed.

Lemma word_anagrams_word_list_centric_run word word_list nprocs :
  nprocs ≤ 1 →
  word_anagrams word word_list "word_list_centric" nprocs
                (word_list_centric_run word word_list).
Proof.
  intros Hn. unfold word_anagrams. rewrite anagram_methods_lookup.
  rewrite decide_False, decide_True by done. cbv zeta.
  eexists. split; [|reflexivity].
  eexists. split; [by unfold iterates|].
  cbv zeta. by rewrite bool_decide_eq_true_2.
Qed.

End sequential_runs.

(** ** The worked example *)

Section worked_example.

Lemma eat_sequential :
  mjoin (owas (reduced_word_list (s "eat") eat_word_list) (dividers_of 3)
           <$> word_permutations (s "eat"))
  = [ [s "e"; s "at"]; [s "ea"; s "t"]; [s "e"; s "a"; s "t"];
      [s "e"; s "t"; s "a"]; [s "a"; s "e"; s "t"]; [s "at"; s "e"];
      [s "a"; s "t"; s "e"]; [s "t"; s "ea"]; [s "t"; s "e"; s "a"];
      [s "t"; s "a"; s "e"] ].
Proof. vm_compute. reflexivity. Qed.

Lemma eat_accepts (wp : list str) :
  word_centric_accepts (s "eat") (reduced_word_list (s "eat") eat_word_list)
    (dividers_of 3) wp
  ↔ wp ∈ eat_anagrams.
Proof.
  rewrite <- (elem_of_anagrams_word_centric (s "eat") _ (dividers_of 3) 1 _ wp
                eq_refl).
  rewrite eat_sequential. unfold eat_anagrams.
  rewrite !elem_of_cons, !elem_of_nil. tauto.
Qed.

Lemma NoDup_eat_anagrams : NoDup eat_anagrams.
Proof. apply (bool_decide_unpack _). vm_compute. exact I. Qed.

End worked_example.

(** C3.  With word ["eat"] and the dictionary of the worked example,
    [word_anagrams] returns under either strategy, and what it returns is,
    as a set, exactly the ten word sequences [eat_anagrams]. *)
Theorem word_anagrams_eat (method : string) (nprocs : Z) :
  method = "word_centric"%string ∨ method = "word_list_centric"%string →
  (∃ r, word_anagrams (s "eat") eat_word_list method nprocs r)
  ∧ ∀ r, word_anagrams (s "eat") eat_word_list method nprocs r →
         ∃ pop, result r = Return pop
                ∧ list_to_set pop =@{gset (list str)} list_to_set eat_anagrams
                ∧ size (list_to_set pop : gset (list str)) = 10%nat.
Proof.
  intros Hm. split; [apply word_anagrams_total|].
  intros r Hr. apply word_anagrams_inv in Hr. cbv zeta in Hr.
  change (Py.join (Py.split (s "eat"))) with (s "eat") in Hr.
  change (length (s "eat")) with 3%nat in Hr.
  assert (∃ pop, result r = Return pop ∧ ∀ wp, wp ∈ pop ↔ wp ∈ eat_anagrams)
    as (pop & Hres & Hpop).
  { destruct Hr as [(_ & pop & Hrun & ->)
                   |[(_ & pop & Hrun & ->)|(? & ? & _)]].
    - exists pop. split; [done|]. intros wp.
      rewrite (elem_of_anagrams_word_centric _ _ _ _ _ _ Hrun).
      apply eat_accepts.
    - exists pop. split; [done|]. intros wp.
      rewrite (elem_of_anagrams_word_list_centric _ _ _ _ _ _ Hrun).
      rewrite <- eat_accepts. symmetry.
      apply accepts_iff, (dividers_of_Forall 3).
    - by destruct Hm. }
  assert (list_to_set pop =@{gset (list str)} list_to_set eat_anagrams) as E.
  { apply set_eq. intros wp. by rewrite !elem_of_list_to_set. }
  exists pop. split_and!; [done | done |].
  rewrite E. by rewrite size_list_to_set by apply NoDup_eat_anagrams.
Qed.

Lemma word_anagrams_eat_witness :
  ("word_centric"%string = "word_centric"%string
   ∨ "word_centric"%string = "word_list_centric"%string)
  ∧ ∃ pop, result (word_centric_run (s "eat") eat_word_list) = Return pop
           ∧ list_to_set pop =@{gset (list str)} list_to_set eat_anagrams
           ∧ size (list_to_set pop : gset (list str)) = 10%nat.
Proof.
  split; [by left|].
  apply (proj2 (word_anagrams_eat "word_centric" 1 (or_introl eq_refl))).
  apply word_anagrams_word_centric_run. lia.
Defined.

(** C9.  For the empty word, and for any word made of whitespace only,
    the divider enumeration is empty, the reduced word list is empty, and
    [word_anagrams] returns the empty list under either strategy without
    raising. *)
Theorem word_anagrams_blank (word : str) (word_list : list str)
    (method : string) (nprocs : Z) :
  Forall (λ c, Py.isspace c = true) word →
  method = "word_centric"%string ∨ method = "word_list_centric"%string →
  Py.join (Py.split word) = []
  ∧ dividers_of (length (Py.join (Py.split word))) = []
  ∧ reduced_word_list (Py.join (Py.split word)) word_list = ∅
  ∧ (∃ r, word_anagrams word word_list method nprocs r)
  ∧ ∀ r, word_anagrams word word_list method nprocs r →
         result r = Return [].
Proof.
  intros Hw Hm. pose proof (join_split_whitespace word Hw) as E.
  rewrite E. split_and!; [done | done | done | apply word_anagrams_total |].
  intros r Hr. apply word_anagrams_inv in Hr. cbv zeta in Hr.
  rewrite E in Hr.
  destruct Hr as [(_ & pop & Hrun & ->)
                 |[(_ & pop & Hrun & ->)|(? & ? & _)]]; simpl.
  - f_equal. apply anagrams_word_centric_Permutation in Hrun.
    by apply Permutation_nil_r in Hrun.
  - f_equal.
    apply anagrams_word_list_centric_Permutation in Hrun as (? & _ & Hrun).
    by apply Permutation_nil_r in Hrun.
  - by destruct Hm.
Qed.

Lemma word_anagrams_blank_witness :
  Py.join (Py.split (s "  ")) = []
  ∧ dividers_of (length (Py.join (Py.split (s "  ")))) = []
  ∧ reduced_word_list (Py.join (Py.split (s "  "))) [s "a"] = ∅
  ∧ (∃ r, word_anagrams (s "  ") [s "a"] "word_list_centric" 4 r)
  ∧ ∀ r, word_anagrams (s "  ") [s "a"] "word_list_centric" 4 r →
         result r = Return [].
Proof.
  apply (word_anagrams_blank (s "  ") [s "a"] "word_list_centric" 4).
  - repeat constructor.
  - by right.
Defined.

(** C8 as stated fails: with a selector outside the dictionary of
    methods the call does end in an error, but only after the reduced word
    list and the dividers have been computed. *)
Lemma word_anagrams_unknown_method_not_immediate :
  ¬ (∀ r, word_anagrams (s "ab") [s "a"; s "b"] "anagram" 1 r →
          (∃ e, result r = Raise e) ∧ work r = []).
Proof.
  intros H.
  destruct (H (Run (preparation (s "ab") [s "a"; s "b"])
                   (Raise (KeyError "anagram")))) as [_ Hwork].
  - unfold word_anagrams. rewrite anagram_methods_lookup.
    rewrite !decide_False by done. reflexivity.
  - discriminate Hwork.
Qed.

(** C8, as the code has it.  With a selector other than [word_centric]
    and [word_list_centric], [word_anagrams] ends in exactly one way: it
    raises [KeyError] for the selector, at the lookup that follows the
    computation of the reduced word list and of the dividers, and it runs
    no strategy.  With one of the two selectors it always returns a list
    and never raises. *)
Theorem word_anagrams_method (word : str) (word_list : list str)
    (method : string) (nprocs : Z) :
  (method ≠ "word_centric"%string → method ≠ "word_list_centric"%string →
   ∀ r, word_anagrams word word_list method nprocs r
        ↔ r = Run (preparation word word_list) (Raise (KeyError method)))
  ∧ (method = "word_centric"%string ∨ method = "word_list_centric"%string →
     (∃ r, word_anagrams word word_list method nprocs r)
     ∧ ∀ r, word_anagrams word word_list method nprocs r →
            ∃ pop, r = Run (preparation word word_list ++ [Dispatched method])
                           (Return pop)).
Proof.
  split.
  - intros H1 H2 r. unfold word_anagrams. rewrite anagram_methods_lookup.
    rewrite !decide_False by done. reflexivity.
  - intros Hm. split; [apply word_anagrams_total|].
    intros r Hr. apply word_anagrams_inv in Hr. cbv zeta in Hr.
    destruct Hr as [(_ & pop & _ & ->)|[(_ & pop & _ & ->)|(? & ? & _)]].
    + by exists pop.
    + by exists pop.
    + by destruct Hm.
Qed.

Lemma word_anagrams_method_witness :
  (∀ r, word_anagrams (s "ab") [s "a"; s "b"] "anagram" 1 r
        ↔ r = Run (preparation (s "ab") [s "a"; s "b"])
                  (Raise (KeyError "anagram")))
  ∧ ∃ pop, word_centric_run (s "ab") [s "a"; s "b"]
           = Run (preparation (s "ab") [s "a"; s "b"]
                    ++ [Dispatched "word_centric"])
                 (Return pop).
Proof.
  split.
  - apply (proj1 (word_anagrams_method (s "ab") [s "a"; s "b"] "anagram" 1));
      discriminate.
  - apply (proj2 (word_anagrams_method (s "ab") [s "a"; s "b"]
                    "word_centric" 1) (or_introl eq_refl)).
    apply word_anagrams_word_centric_run. lia.
Defined.

Lemma strategies_agree_witness :
  1 ≤ 1
  ∧ ∀ pop1 pop2,
      anagrams_word_centric (s "eat") (reduced_word_list (s "eat") eat_word_list)
        (dividers_of (length (s "eat"))) 1 pop1 →
      anagrams_word_list_centric (s "eat")
        (reduced_word_list (s "eat") eat_word_list)
        (dividers_of (length (s "eat"))) 1 pop2 →
      list_to_set pop1 =@{gset (list str)} list_to_set pop2.
Proof.
  split; [lia|].
  apply (strategies_agree (s "eat") eat_word_list 1). lia.
Defined.

Lemma word_list_centric_NoDup_witness :
  1 ≤ 1
  ∧ ∀ pop, anagrams_word_list_centric (s "eat")
             (list_to_set [s "e"; s "a"; s "t"; s "ea"; s "at"])
             (dividers_of (length (s "eat"))) 1 pop →
           NoDup pop.
Proof.
  split; [lia|].
  apply (word_list_centric_NoDup (s "eat")
           (list_to_set [s "e"; s "a"; s "t"; s "ea"; s "at"]) 1).
  lia.
Defined.

Lemma word_anagrams_no_single_witness :
  ∃ pop, result (word_centric_run (s "eat") eat_word_list) = Return pop
         ∧ [s "eat"] ∉ pop.
Proof.
  eexists. split; [reflexivity|].
  refine (proj2 (proj2 (word_anagrams_no_single (s "eat") eat_word_list
                          "word_centric" 1)
                   (word_centric_run (s "eat") eat_word_list) _ _ eq_refl) _).
  apply word_anagrams_word_centric_run. lia.
Defined.

(** * Further properties *)

(** ** Completeness of the divider enumeration *)

Section dividers_complete.

Lemma sublist_combinations {A} (c l : list A) :
  c `sublist_of` l → c ∈ Itertools.combinations l (length c).
Proof.
  induction 1 as [|x c l _ IH|x c l _ IH].
  - simpl. apply list_elem_of_singleton. done.
  - simpl. apply elem_of_app. left. apply list_elem_of_fmap. by exists c.
  - destruct c as [|y c]; [rewrite combinations_0; by apply list_elem_of_singleton|].
    simpl in *. apply elem_of_app. by right.
Qed.

Lemma sorted_sublist_seqZ (d : list Z) (m n : Z) :
  StronglySorted Z.lt d → Forall (λ x, m ≤ x < m + n) d →
  d `sublist_of` seqZ m n.
Proof.
  intros Hs. revert m n. induction Hs as [|x d Hs IH Hx]; intros m n Hb.
  - apply sublist_nil_l.
  - apply Forall_cons in Hb as [Hxb Hb].
    replace n with ((x - m) + (m + n - x)) by lia.
    rewrite seqZ_app by lia. apply sublist_inserts_l.
    replace (m + (x - m)) with x by lia.
    rewrite seqZ_cons by lia. apply sublist_skip. apply IH.
    apply Forall_forall. intros y Hy.
    pose proof (proj1 (Forall_forall _ _) Hx y Hy).
    pose proof (proj1 (Forall_forall _ _) Hb y Hy). simpl in *. lia.
Qed.

Lemma dividers_of_complete (L : nat) (d : list Z) :
  (1 ≤ L)%nat → is_divider (Z.of_nat L) d → d ∈ dividers_of L.
Proof.
  intros HL [Hs Hb].
  assert (d `sublist_of` Py.range 1 (Z.of_nat L)) as Hsub.
  { unfold Py.range. apply sorted_sublist_seqZ; [done|].
    eapply Forall_impl; [exact Hb|]. simpl. lia. }
  unfold dividers_of, k_divider_sets. apply elem_of_join_fmap.
  exists (length d). split; [|by apply sublist_combinations].
  apply elem_of_seq. apply sublist_length in Hsub.
  rewrite length_range in Hsub. lia.
Qed.

Lemma differences_positive_iff (a L : Z) (d : list Z) :
  Forall (λ n, 0 < n) (adjacent_differences a (d ++ [L]))
  ↔ StronglySorted Z.lt (a :: d) ∧ Forall (λ x, x < L) (a :: d).
Proof.
  revert a. induction d as [|b d IH]; intros a; simpl.
  - rewrite !Forall_cons, !Forall_nil. split.
    + intros [? _]. split_and!; [repeat constructor | lia | done].
    + intros [_ [? _]]. split; [lia | done].
  - rewrite Forall_cons, IH, !StronglySorted_cons, !Forall_cons. split.
    + intros (Hab & (Hbd & Hs) & HbL & HdL).
      split_and!; [lia | | done | done | lia | done | done].
      eapply Forall_impl; [exact Hbd|]. simpl. lia.
    + intros (((Hab & Had) & Hbd & Hs) & HaL & HbL & HdL).
      split_and!; [lia | done..].
Qed.

End dividers_complete.

(** X1.  The divider enumeration of [word_anagrams] is complete: for a
    word of length [L] it holds a tuple exactly when [L >= 1] and the
    tuple is strictly increasing with entries strictly between [0] and
    [L]. *)
Theorem dividers_of_exactly (L : nat) (d : list Z) :
  d ∈ dividers_of L
  ↔ (1 ≤ L)%nat
    ∧ StronglySorted Z.lt d ∧ Forall (λ x, 0 < x < Z.of_nat L) d.
Proof.
  split.
  - intros Hd. split; [|by apply dividers_of_valid].
    apply elem_of_dividers_of in Hd as (k & ? & _). lia.
  - intros [HL Hd]. by apply dividers_of_complete.
Qed.

Lemma dividers_of_exactly_witness :
  ([1; 3] ∈ dividers_of 4) ∧ ([3; 1] ∉ dividers_of 4) ∧ ([] ∉ dividers_of 0).
Proof.
  split_and!.
  - apply (proj2 (dividers_of_exactly 4 [1; 3])).
    split; [lia|]. split; repeat constructor.
  - intros H. apply (proj1 (dividers_of_exactly 4 [3; 1])) in H as (_ & Hs & _).
    apply StronglySorted_cons in Hs as [Hlt _].
    apply Forall_cons in Hlt as [Hlt _]. lia.
  - intros H. apply (proj1 (dividers_of_exactly 0 [])) in H as (HL & _). lia.
Defined.

(** X2.  [div_to_integer_partition] accepts every tuple, well formed or
    not: the result has one entry more than the tuple, its entries sum to
    the word length, and the tuple can be read back from it; the entries
    are all positive exactly when the word length is positive and the
    tuple is strictly increasing inside the open interval up to it. *)
Theorem div_to_integer_partition_any (d : list Z) (L : Z) :
  length (div_to_integer_partition d L) = S (length d)
  ∧ sum_Z (div_to_integer_partition d L) = L
  ∧ partition_to_div (div_to_integer_partition d L) = d
  ∧ (Forall (λ n, 0 < n) (div_to_integer_partition d L)
     ↔ 0 < L ∧ StronglySorted Z.lt d ∧ Forall (λ x, 0 < x < L) d).
Proof.
  split_and!.
  - apply length_div_to_integer_partition.
  - rewrite div_to_integer_partition_differences, sum_differences. lia.
  - apply partition_to_div_to_integer_partition.
  - rewrite div_to_integer_partition_differences, differences_positive_iff.
    rewrite StronglySorted_cons, Forall_cons. split.
    + intros ((H0 & Hs) & HL & Hb). split_and!; [done..|].
      apply Forall_forall. intros x Hx.
      pose proof (proj1 (Forall_forall _ _) H0 x Hx).
      pose proof (proj1 (Forall_forall _ _) Hb x Hx). simpl in *. lia.
    + intros (HL & Hs & Hb). split_and!; [|done..|];
        (eapply Forall_impl; [exact Hb|]); simpl; lia.
Qed.

Example div_to_integer_partition_malformed :
  div_to_integer_partition [3; 1] 4 = [3; -2; 3].
Proof. reflexivity. Qed.

(** ** Cutting words *)

Section cutting_more.

Lemma length_div_word_partitions (word : str) (d : list Z) :
  length (div_word_partitions word d) = S (length d).
Proof.
  unfold div_word_partitions. destruct d as [|x d]; [done|].
  rewrite bool_decide_eq_false_2 by (simpl; lia).
  rewrite !length_app, length_fmap, length_seq. simpl. lia.
Qed.

Lemma div_word_partitions_join_any (word : str) (d : list Z) :
  StronglySorted Z.lt d → Forall (λ x, 0 < x) d →
  mjoin (div_word_partitions word d) = word.
Proof.
  intros Hs Hp. rewrite div_word_partitions_pieces by done.
  rewrite join_pieces; [done | done |]. by constructor.
Qed.

Lemma Forall2_fmap_same {A B} (P : A → B → Prop) (f : A → B) (l : list A) :
  Forall (λ x, P x (f x)) l → Forall2 P l (f <$> l).
Proof. induction 1; by constructor. Qed.

Lemma positive_lengths_nonempty (wp : list str) :
  Forall (λ n, 0 < n) ((λ w, Z.of_nat (length w)) <$> wp) →
  Forall (λ w, w ≠ []) wp.
Proof.
  rewrite Forall_fmap. intros H. eapply Forall_impl; [exact H|].
  intros [|??]; simpl; [lia | done].
Qed.

End cutting_more.

(** X3.  [dividers_to_word_partitions] returns one word-partition per
    divider, in the order of the dividers.  For a divider of [k] strictly
    increasing positive cuts the word-partition has [k+1] parts and the
    parts, joined, give the word back; this holds even when cuts lie
    beyond the end of the word (the slices are then empty). *)
Theorem dividers_to_word_partitions_join (word : str)
    (dividers : list (list Z)) :
  Forall (λ d, StronglySorted Z.lt d ∧ Forall (λ x, 0 < x) d) dividers →
  Forall2 (λ d wp, length wp = S (length d) ∧ mjoin wp = word)
          dividers (dividers_to_word_partitions word dividers).
Proof.
  intros H. unfold dividers_to_word_partitions. apply Forall2_fmap_same.
  eapply Forall_impl; [exact H|]. intros d [Hs Hp]. split.
  - apply length_div_word_partitions.
  - by apply div_word_partitions_join_any.
Qed.

Lemma dividers_to_word_partitions_join_witness :
  Forall2 (λ d wp, length wp = S (length d) ∧ mjoin wp = s "ABCC")
          [[]; [1; 3]; [2; 9]]
          (dividers_to_word_partitions (s "ABCC") [[]; [1; 3]; [2; 9]]).
Proof.
  apply (dividers_to_word_partitions_join (s "ABCC") [[]; [1; 3]; [2; 9]]).
  repeat constructor.
Defined.

Example dividers_to_word_partitions_ABCC :
  dividers_to_word_partitions (s "ABCC") [[1]; [2]; [3]; [1; 2; 3]; [2; 9]]
  = [ [s "A"; s "BCC"]; [s "AB"; s "CC"]; [s "ABC"; s "C"];
      [s "A"; s "B"; s "C"; s "C"]; [s "AB"; s "CC"; s ""] ].
Proof. reflexivity. Qed.

(** X4.  For dividers whose cuts are strictly increasing and strictly
    inside the word, the lengths of the parts that
    [dividers_to_word_partitions] cuts are the entries of
    [div_to_integer_partition] for that divider and the length of the
    word; no part of a non-empty word is empty. *)
Theorem dividers_to_word_partitions_lengths (word : str)
    (dividers : list (list Z)) :
  Forall (λ d, StronglySorted Z.lt d
               ∧ Forall (λ x, 0 < x < Z.of_nat (length word)) d) dividers →
  Forall2 (λ d wp,
             (λ w, Z.of_nat (length w)) <$> wp
             = div_to_integer_partition d (Z.of_nat (length word))
             ∧ (word ≠ [] → Forall (λ w, w ≠ []) wp))
          dividers (dividers_to_word_partitions word dividers).
Proof.
  intros H. unfold dividers_to_word_partitions. apply Forall2_fmap_same.
  eapply Forall_impl; [exact H|]. intros d [Hs Hb].
  pose proof (div_word_partitions_lengths word d (conj Hs Hb)) as E.
  split; [done|]. intros Hw. apply positive_lengths_nonempty. rewrite E.
  rewrite div_to_integer_partition_differences.
  apply differences_positive_iff. split.
  - constructor; [done|]. eapply Forall_impl; [exact Hb|]. simpl. lia.
  - constructor; [destruct word; [done | simpl; lia]|].
    eapply Forall_impl; [exact Hb|]. simpl. lia.
Qed.

Lemma dividers_to_word_partitions_lengths_witness :
  Forall2 (λ d wp,
             (λ w, Z.of_nat (length w)) <$> wp
             = div_to_integer_partition d (Z.of_nat (length (s "ABCC")))
             ∧ (s "ABCC" ≠ [] → Forall (λ w, w ≠ []) wp))
          [[]; [1; 3]]
          (dividers_to_word_partitions (s "ABCC") [[]; [1; 3]]).
Proof.
  apply (dividers_to_word_partitions_lengths (s "ABCC") [[]; [1; 3]]).
  repeat constructor.
Defined.

(** X5.  Round trip.  Joining a word sequence and cutting the result at
    a divider whose integer partition lists the lengths of the words gives
    the word sequence back. *)
Theorem dividers_to_word_partitions_of_join (L : Z) (d : list Z)
    (wp : list str) :
  StronglySorted Z.lt d → Forall (λ x, 0 < x) d →
  (λ w, Z.of_nat (length w)) <$> wp = div_to_integer_partition d L →
  dividers_to_word_partitions (Py.join wp) [d] = [wp].
Proof.
  intros Hs Hp E. unfold dividers_to_word_partitions, Py.join. simpl.
  f_equal. by apply (div_word_partitions_of_join L).
Qed.

Lemma dividers_to_word_partitions_of_join_witness :
  dividers_to_word_partitions (Py.join [s "t"; s "ea"]) [[1]]
  = [[s "t"; s "ea"]].
Proof.
  apply (dividers_to_word_partitions_of_join 3 [1] [s "t"; s "ea"]).
  - repeat constructor.
  - repeat constructor.
  - reflexivity.
Defined.

(** X6.  [ordered_word_anagrams] returns the whole word as a one-element
    sequence exactly when the word is in the set and the empty divider is
    among the dividers; with an empty set it returns nothing; and, for
    dividers of strictly increasing positive cuts, every sequence it
    returns is made of words of the set that, joined, spell the word. *)
Theorem ordered_word_anagrams_whole_word (word : str)
    (word_list_set : gset str) (dividers : list (list Z)) :
  ([word] ∈ ordered_word_anagrams word word_list_set dividers
   ↔ word ∈ word_list_set ∧ [] ∈ dividers)
  ∧ ordered_word_anagrams word ∅ dividers = []
  ∧ (Forall (λ d, StronglySorted Z.lt d ∧ Forall (λ x, 0 < x) d) dividers →
     ∀ wp, wp ∈ ordered_word_anagrams word word_list_set dividers →
           Forall (λ w, w ∈ word_list_set) wp ∧ Py.join wp = word).
Proof.
  split_and!.
  - change (ordered_word_anagrams word word_list_set dividers)
      with (owas word_list_set dividers word).
    rewrite elem_of_owas. unfold issuperset. split.
    + intros [(d & Hd & E) Hw]. apply Forall_cons in Hw as [Hw _].
      split; [done|]. apply (f_equal length) in E.
      rewrite length_div_word_partitions in E. simpl in E.
      destruct d; [done | simpl in E; lia].
    + intros [Hw Hd]. split; [by exists [] | by repeat constructor].
  - apply elem_of_nil_inv. intros wp.
    change (ordered_word_anagrams word ∅ dividers) with (owas ∅ dividers word).
    rewrite elem_of_owas. intros [(d & _ & ->) Hw].
    pose proof (length_div_word_partitions word d) as Hl.
    unfold issuperset in Hw.
    destruct (div_word_partitions word d) as [|w ?]; [done|].
    apply Forall_cons in Hw as [Hw _]. by apply not_elem_of_empty in Hw.
  - intros Hds wp.
    change (ordered_word_anagrams word word_list_set dividers)
      with (owas word_list_set dividers word).
    rewrite elem_of_owas. intros [(d & Hd & ->) Hw]. split; [done|].
    destruct (proj1 (Forall_forall _ _) Hds d Hd) as [Hs Hp].
    by apply div_word_partitions_join_any.
Qed.

Lemma ordered_word_anagrams_whole_word_witness :
  [s "eat"] ∈ ordered_word_anagrams (s "eat") {[ s "eat" ]} [[]; [1]].
Proof.
  apply (proj1 (ordered_word_anagrams_whole_word (s "eat") {[ s "eat" ]}
                  [[]; [1]])).
  split; [by apply elem_of_singleton | left].
Defined.

(** ** Candidates of the dictionary-centric strategy *)

Section candidates.

Lemma length_bind_const {A B} (f : A → list B) (l : list A) (n : nat) :
  (∀ x, length (f x) = n) → length (l ≫= f) = (length l * n)%nat.
Proof.
  intros Hf. induction l as [|x l IH]; [done|].
  cbn. rewrite length_app, Hf. fold (mbind f l). rewrite IH. lia.
Qed.

Lemma length_product {A} (bins : list (list A)) :
  length (Itertools.product bins) = product_of_sizes bins.
Proof.
  unfold product_of_sizes. induction bins as [|b bins IH]; [done|].
  simpl. rewrite (length_bind_const _ _ (length (Itertools.product bins))).
  - by rewrite IH.
  - intros x. by rewrite length_fmap.
Qed.

Lemma bucket_by_length_lookup_option (order : list str) (j : Z) :
  bucket_by_length order !! j
  = match filter (λ w, Z.of_nat (length w) = j) order with
    | [] => None
    | bucket => Some bucket
    end.
Proof.
  induction order as [|w order IH] using rev_ind; [done|].
  pose proof (bucket_by_length_lookup order (Z.of_nat (length w))) as Ht.
  unfold bucket_by_length in *.
  rewrite foldl_snoc, filter_app. cbn beta zeta.
  destruct (decide (Z.of_nat (length w) = j)) as [E|Hne].
  - rewrite E in *. rewrite lookup_insert_eq, Ht.
    rewrite filter_cons_True by done. rewrite filter_nil.
    by destruct (filter _ order).
  - rewrite lookup_insert_ne, IH by done.
    rewrite filter_cons_False by done. by rewrite filter_nil, app_nil_r.
Qed.

End candidates.

(** X7.  [ip_to_word_partitions] yields as many candidates as the product
    of the sizes of the buckets of the part lengths, each candidate with
    one word per part, the i-th word taken from the bucket of the i-th
    part length; a part length that is not a key of the dictionary leaves
    no candidate at all. *)
Theorem ip_to_word_partitions_count (integer_partition : list Z)
    (word_list_by_length : gmap Z (list str)) :
  length (ip_to_word_partitions integer_partition word_list_by_length)
  = product_of_sizes ((λ j, word_list_by_length !!! j) <$> integer_partition)
  ∧ (∀ wp, wp ∈ ip_to_word_partitions integer_partition word_list_by_length
           ↔ Forall2 (λ w j, w ∈ word_list_by_length !!! j)
                     wp integer_partition)
  ∧ (∀ j, j ∈ integer_partition → word_list_by_length !! j = None →
          ip_to_word_partitions integer_partition word_list_by_length = []).
Proof.
  unfold ip_to_word_partitions. split_and!.
  - apply length_product.
  - intros wp. by rewrite elem_of_product, Forall2_fmap_r.
  - intros j Hj Hnone. apply elem_of_nil_inv. intros wp.
    rewrite elem_of_product, Forall2_fmap_r. intros HF.
    apply list_elem_of_lookup in Hj as [i Hi].
    destruct (Forall2_lookup_r _ _ _ _ _ HF Hi) as (w & _ & Hw).
    unfold compose in Hw. rewrite lookup_total_alt, Hnone in Hw.
    by apply elem_of_nil in Hw.
Qed.

Lemma ip_to_word_partitions_count_witness :
  ip_to_word_partitions [1; 2] {[ 1 := [s "a"; s "e"] ]} = [].
Proof.
  apply (proj2 (proj2 (ip_to_word_partitions_count [1; 2]
                         {[ 1 := [s "a"; s "e"] ]})) 2).
  - right; left.
  - reflexivity.
Defined.

(** X8.  The bucketing loop of [anagrams_word_list_centric] puts every
    visited word into the bucket of its own length and nowhere else: the
    bucket of [n] lists the visited words of length [n], in visiting
    order, and [n] is a key exactly when some visited word has length
    [n]. *)
Theorem bucket_by_length_spec (order : list str) (n : Z) :
  bucket_by_length order !!! n
  = filter (λ w, Z.of_nat (length w) = n) order
  ∧ (is_Some (bucket_by_length order !! n)
     ↔ ∃ w, w ∈ order ∧ Z.of_nat (length w) = n).
Proof.
  split; [apply bucket_by_length_lookup|].
  rewrite bucket_by_length_lookup_option.
  destruct (filter _ order) as [|w l] eqn:E.
  - split; [by intros [? ?]|]. intros (w & Hw & Hn).
    assert (w ∈ filter (λ w, Z.of_nat (length w) = n) order) as Hin
      by by apply list_elem_of_filter.
    rewrite E in Hin. by apply elem_of_nil in Hin.
  - split; [|by eexists]. intros _. exists w.
    assert (w ∈ filter (λ w, Z.of_nat (length w) = n) order) as Hin
      by (rewrite E; left).
    apply list_elem_of_filter in Hin as [? ?]. done.
Qed.

Example bucket_by_length_eat :
  bucket_by_length [s "e"; s "at"; s "a"; s "ea"; s "t"]
  = {[ 1 := [s "e"; s "a"; s "t"]; 2 := [s "at"; s "ea"] ]}.
Proof. vm_compute. reflexivity. Qed.

(** X9.  [div_to_anagrams] keeps the candidates of the divider whose
    letters are those of the comparable form it was given: with the
    comparable form of a word, a sequence is returned exactly when its
    i-th word is in the bucket of the i-th part length and its words
    together are a rearrangement of the word. *)
Theorem div_to_anagrams_spec (divider : list Z)
    (word_list_by_length : gmap Z (list str)) (word_length : Z)
    (word : str) (wp : list str) :
  wp ∈ div_to_anagrams divider word_list_by_length word_length
                       (wp_to_comparable_form [word])
  ↔ Forall2 (λ w j, w ∈ word_list_by_length !!! j) wp
            (div_to_integer_partition divider word_length)
    ∧ Py.join wp ≡ₚ word.
Proof.
  unfold div_to_anagrams, ip_to_word_partitions, Py.join.
  rewrite list_elem_of_filter, elem_of_product, Forall2_fmap_r.
  rewrite wp_to_comparable_form_eq. cbn [mjoin list_join].
  rewrite app_nil_r. unfold compose. tauto.
Qed.

Example div_to_anagrams_eat :
  div_to_anagrams [1]
    {[ 1 := [s "e"; s "a"; s "t"]; 2 := [s "at"; s "ea"] ]} 3 (s "aet")
  = [[s "e"; s "at"]; [s "t"; s "ea"]].
Proof. vm_compute. reflexivity. Qed.

(** ** What [word_anagrams] returns *)

Section anagrams_spec.
Implicit Types (word w : str) (word_list : list str) (wp : list str)
  (pop : list (list str)) (method : string) (nprocs : Z) (r : run).

Lemma prefix_sums_last (a : Z) (l : list Z) :
  l ≠ [] →
  prefix_sums a l = removelast (prefix_sums a l) ++ [a + sum_Z l].
Proof.
  revert a. induction l as [|x l IH]; intros a Hl; [done|].
  destruct l as [|y l].
  - simpl. do 2 f_equal. lia.
  - specialize (IH (a + x) ltac:(done)).
    change (prefix_sums a (x :: y :: l))
      with ((a + x) :: prefix_sums (a + x) (y :: l)).
    rewrite IH at 1.
    change (removelast ((a + x) :: prefix_sums (a + x) (y :: l)))
      with ((a + x) :: removelast (prefix_sums (a + x) (y :: l))).
    simpl. do 3 f_equal. lia.
Qed.

Lemma differences_prefix_sums (a : Z) (l : list Z) :
  adjacent_differences a (prefix_sums a l) = l.
Proof.
  revert a. induction l as [|x l IH]; intros a; simpl; [done|].
  rewrite IH. f_equal. lia.
Qed.

(** An integer partition is the partition of the divider read off it. *)
Lemma div_to_integer_partition_partition_to_div (l : list Z) :
  l ≠ [] →
  div_to_integer_partition (partition_to_div l) (sum_Z l) = l.
Proof.
  intros Hl. rewrite div_to_integer_partition_differences.
  unfold partition_to_div.
  replace (sum_Z l) with (0 + sum_Z l) by lia.
  rewrite <- prefix_sums_last by done. apply differences_prefix_sums.
Qed.

Lemma sum_lengths wp :
  sum_Z ((λ w, Z.of_nat (length w)) <$> wp) = Z.of_nat (length (mjoin wp)).
Proof.
  induction wp as [|w wp IH]; [done|].
  change (sum_Z ((λ w, Z.of_nat (length w)) <$> w :: wp))
    with (Z.of_nat (length w) + sum_Z ((λ w, Z.of_nat (length w)) <$> wp)).
  change (mjoin (w :: wp)) with (w ++ mjoin wp).
  rewrite IH, length_app. lia.
Qed.

Lemma length_le_join wp :
  Forall (λ w, w ≠ []) wp → (length wp ≤ length (mjoin wp))%nat.
Proof.
  induction 1 as [|w wp Hw _ IH]; [done|].
  change (mjoin (w :: wp)) with (w ++ mjoin wp).
  rewrite length_app. destruct w; [done | simpl in *; lia].
Qed.

Lemma part_length_bound wp w :
  Forall (λ w, w ≠ []) wp → w ∈ wp →
  (length w + length wp ≤ length (mjoin wp) + 1)%nat.
Proof.
  intros Hne Hw. induction Hw as [w wp | w x wp Hw IH].
  - apply Forall_cons in Hne as [_ Hne]. apply length_le_join in Hne.
    change (mjoin (w :: wp)) with (w ++ mjoin wp).
    rewrite length_app. simpl. lia.
  - apply Forall_cons in Hne as [Hx Hne]. specialize (IH Hne).
    change (mjoin (x :: wp)) with (x ++ mjoin wp).
    rewrite length_app. destruct x; [done | simpl in *; lia].
Qed.

Lemma part_submseteq_join wp w : w ∈ wp → w ⊆+ mjoin wp.
Proof.
  intros (l1 & l2 & ->)%list_elem_of_split.
  rewrite join_app. cbn.
  apply submseteq_inserts_l, submseteq_inserts_r. done.
Qed.

(** On the reduced word list and the dividers of the word, the accepted
    word sequences are the anagrams of two or more words. *)
Lemma accepts_is_anagram word word_list wp :
  word_list_centric_accepts word (reduced_word_list word word_list)
    (dividers_of (length word)) wp
  ↔ (2 ≤ length wp)%nat ∧ is_anagram word word_list wp.
Proof.
  split.
  - intros Hacc. pose proof (accepted_not_single _ _ _ Hacc) as Hne1.
    destruct Hacc as (d & _ & [Hw Hl]%Forall2_member_length & HP).
    apply (f_equal length) in Hl.
    rewrite length_fmap, length_div_to_integer_partition in Hl.
    split; [lia|]. split; [|done].
    eapply Forall_impl; [exact Hw|]. intros w Hin. simpl in Hin.
    apply elem_of_reduced_word_list in Hin as (? & ? & _).
    split; [done|]. destruct w; [simpl in *; lia | done].
  - intros [Hlen [Hw HP]].
    set (lens := (λ w, Z.of_nat (length w)) <$> wp).
    assert (lens ≠ []) as Hlens by (destruct wp; [simpl in Hlen; lia | done]).
    assert (sum_Z lens = Z.of_nat (length word)) as Hsum
      by (unfold lens; by rewrite sum_lengths, HP).
    assert (Forall (λ w, w ≠ []) wp) as Hne
      by (eapply Forall_impl; [exact Hw|]; by intros ? [_ ?]).
    pose proof (div_to_integer_partition_partition_to_div lens Hlens) as Hip.
    rewrite Hsum in Hip.
    assert (Forall (λ n, 0 < n) lens) as Hpos.
    { unfold lens. rewrite Forall_fmap.
      eapply Forall_impl; [exact Hne|]. intros [|??]; simpl; [done | lia]. }
    rewrite <- Hip in Hpos.
    rewrite div_to_integer_partition_differences in Hpos.
    apply differences_positive_iff in Hpos as [Hs Hb].
    apply StronglySorted_cons in Hs as [H0 Hs].
    apply Forall_cons in Hb as [HL Hb].
    exists (partition_to_div lens). split_and!; [| |done].
    + apply dividers_of_complete; [lia|]. split; [done|].
      apply Forall_forall. intros x Hx.
      pose proof (proj1 (Forall_forall _ _) H0 x Hx).
      pose proof (proj1 (Forall_forall _ _) Hb x Hx). simpl in *. lia.
    + apply Forall2_member_length. split; [|by rewrite Hip].
      unfold issuperset. apply Forall_forall. intros w Hin.
      destruct (proj1 (Forall_forall _ _) Hw w Hin) as [Hwl Hwne].
      pose proof (part_length_bound wp w Hne Hin) as Hbound.
      rewrite HP in Hbound.
      apply elem_of_reduced_word_list. split_and!; [done | | lia |].
      * destruct w; [done | simpl; lia].
      * rewrite <- HP. by apply part_submseteq_join.
Qed.

(** What a call with a known method returns, in terms of acceptance. *)
Lemma word_anagrams_returns word word_list method nprocs r :
  method = "word_centric"%string ∨ method = "word_list_centric"%string →
  word_anagrams word word_list method nprocs r →
  ∃ pop, result r = Return pop
         ∧ (anagrams_word_centric (Py.join (Py.split word))
              (reduced_word_list (Py.join (Py.split word)) word_list)
              (dividers_of (length (Py.join (Py.split word)))) nprocs pop
            ∨ anagrams_word_list_centric (Py.join (Py.split word))
                (reduced_word_list (Py.join (Py.split word)) word_list)
                (dividers_of (length (Py.join (Py.split word)))) nprocs pop).
Proof.
  intros Hm Hr. apply word_anagrams_inv in Hr. cbv zeta in Hr.
  destruct Hr as [(_ & pop & Hrun & ->)|[(_ & pop & Hrun & ->)|(? & ? & _)]].
  - exists pop. split; [done | by left].
  - exists pop. split; [done | by right].
  - by destruct Hm.
Qed.

Lemma elem_of_strategy_output word wls nprocs pop wp :
  anagrams_word_centric word wls (dividers_of (length word)) nprocs pop
  ∨ anagrams_word_list_centric word wls (dividers_of (length word)) nprocs pop →
  wp ∈ pop
  ↔ word_list_centric_accepts word wls (dividers_of (length word)) wp.
Proof.
  intros [H|H].
  - rewrite (elem_of_anagrams_word_centric _ _ _ _ _ _ H).
    apply accepts_iff, dividers_of_Forall.
  - apply (elem_of_anagrams_word_list_centric _ _ _ _ _ _ H).
Qed.

Lemma word_anagrams_elem_of word word_list method nprocs r :
  method = "word_centric"%string ∨ method = "word_list_centric"%string →
  word_anagrams word word_list method nprocs r →
  ∃ pop, result r = Return pop
         ∧ ∀ wp, wp ∈ pop
                 ↔ (2 ≤ length wp)%nat
                   ∧ is_anagram (Py.join (Py.split word)) word_list wp.
Proof.
  intros Hm Hr.
  destruct (word_anagrams_returns _ _ _ _ _ Hm Hr) as (pop & Hres & Hrun).
  exists pop. split; [done|]. intros wp.
  rewrite (elem_of_strategy_output _ _ _ _ _ Hrun).
  apply accepts_is_anagram.
Qed.

Lemma is_anagram_proper word1 word2 word_list1 word_list2 wp :
  word1 ≡ₚ word2 → (∀ w, w ∈ word_list1 ↔ w ∈ word_list2) →
  is_anagram word1 word_list1 wp → is_anagram word2 word_list2 wp.
Proof.
  intros HP Hwl [Hw Hj]. split; [|by rewrite <- HP].
  eapply Forall_impl; [exact Hw|]. intros w [? ?]. split; [by apply Hwl | done].
Qed.

End anagrams_spec.

(** X10.  With either method and any number of processes,
    [word_anagrams] returns, and the list it returns holds exactly the
    anagrams of the word (whitespace removed) that have two or more words:
    the sequences of non-empty words of the word list whose letters
    together are a rearrangement of the letters of the word. *)
Theorem word_anagrams_spec (word : str) (word_list : list str)
    (method : string) (nprocs : Z) :
  method = "word_centric"%string ∨ method = "word_list_centric"%string →
  (∃ r, word_anagrams word word_list method nprocs r)
  ∧ ∀ r, word_anagrams word word_list method nprocs r →
         ∃ pop, result r = Return pop
                ∧ ∀ wp, wp ∈ pop
                        ↔ (2 ≤ length wp)%nat
                          ∧ Forall (λ w, w ∈ word_list ∧ w ≠ []) wp
                          ∧ Py.join wp ≡ₚ Py.join (Py.split word).
Proof.
  intros Hm. split; [apply word_anagrams_total|].
  intros r Hr. by apply (word_anagrams_elem_of _ _ method nprocs).
Qed.

Lemma word_anagrams_spec_witness :
  ∃ pop, result (word_centric_run (s "e at") eat_word_list) = Return pop
         ∧ ∀ wp, wp ∈ pop
                 ↔ (2 ≤ length wp)%nat
                   ∧ Forall (λ w, w ∈ eat_word_list ∧ w ≠ []) wp
                   ∧ Py.join wp ≡ₚ Py.join (Py.split (s "e at")).
Proof.
  apply (proj2 (word_anagrams_spec (s "e at") eat_word_list "word_centric" 1
                  (or_introl eq_refl))).
  apply word_anagrams_word_centric_run. lia.
Defined.

(** X11.  A word that has at most one character once whitespace is
    removed has no anagram: with either method [word_anagrams] returns
    the empty list. *)
Theorem word_anagrams_short_word (word : str) (word_list : list str)
    (method : string) (nprocs : Z) :
  method = "word_centric"%string ∨ method = "word_list_centric"%string →
  (length (Py.join (Py.split word)) ≤ 1)%nat →
  (∃ r, word_anagrams word word_list method nprocs r)
  ∧ ∀ r, word_anagrams word word_list method nprocs r →
         result r = Return [].
Proof.
  intros Hm Hlen. split; [apply word_anagrams_total|].
  intros r Hr.
  destruct (word_anagrams_elem_of _ _ _ _ _ Hm Hr) as (pop & -> & Hpop).
  f_equal. apply elem_of_nil_inv. intros wp [Hwp [Hw HP]]%Hpop.
  assert (Forall (λ w, w ≠ []) wp) as Hne
    by (eapply Forall_impl; [exact Hw|]; by intros ? [_ ?]).
  apply length_le_join in Hne. apply Permutation_length in HP. lia.
Qed.

Lemma word_anagrams_short_word_witness :
  result (word_list_centric_run (s " a ") [s "a"; s ""]) = Return [].
Proof.
  refine (proj2 (word_anagrams_short_word (s " a ") [s "a"; s ""]
                   "word_list_centric" 1 (or_intror eq_refl) _) _ _).
  - vm_compute. lia.
  - apply word_anagrams_word_list_centric_run. lia.
Defined.

(** X12.  The set of word sequences that [word_anagrams] returns depends
    only on the letters of the word, whitespace aside, and on which
    strings occur in the word list: two calls whose words are
    rearrangements of each other after whitespace is removed, and whose
    word lists hold the same strings, return the same set, whatever
    method and number of processes each call uses. *)
Theorem word_anagrams_letters_only (word1 word2 : str)
    (word_list1 word_list2 : list str) (method1 method2 : string)
    (nprocs1 nprocs2 : Z) (r1 r2 : run) (pop1 pop2 : list (list str)) :
  Py.join (Py.split word1) ≡ₚ Py.join (Py.split word2) →
  (∀ w, w ∈ word_list1 ↔ w ∈ word_list2) →
  method1 = "word_centric"%string ∨ method1 = "word_list_centric"%string →
  method2 = "word_centric"%string ∨ method2 = "word_list_centric"%string →
  word_anagrams word1 word_list1 method1 nprocs1 r1 →
  word_anagrams word2 word_list2 method2 nprocs2 r2 →
  result r1 = Return pop1 → result r2 = Return pop2 →
  list_to_set pop1 =@{gset (list str)} list_to_set pop2.
Proof.
  intros HP Hwl Hm1 Hm2 Hr1 Hr2 E1 E2.
  destruct (word_anagrams_elem_of _ _ _ _ _ Hm1 Hr1) as (? & E1' & H1).
  destruct (word_anagrams_elem_of _ _ _ _ _ Hm2 Hr2) as (? & E2' & H2).
  rewrite E1 in E1'. injection E1' as <-.
  rewrite E2 in E2'. injection E2' as <-.
  apply set_eq. intros wp. rewrite !elem_of_list_to_set, H1, H2.
  split; intros [? Han]; (split; [done|]);
    (eapply is_anagram_proper; [| |exact Han]); done.
Qed.

Lemma word_anagrams_letters_only_witness :
  ∃ pop1 pop2,
    result (word_centric_run (s "eat") [s "at"; s "e"]) = Return pop1
    ∧ result (word_list_centric_run (s "t ea") [s "e"; s "at"; s "e"])
      = Return pop2
    ∧ list_to_set pop1 =@{gset (list str)} list_to_set pop2.
Proof.
  eexists. eexists. split; [reflexivity|]. split; [reflexivity|].
  apply (word_anagrams_letters_only (s "eat") (s "t ea") [s "at"; s "e"]
           [s "e"; s "at"; s "e"] "word_centric" "word_list_centric" 1 1
           (word_centric_run (s "eat") [s "at"; s "e"])
           (word_list_centric_run (s "t ea") [s "e"; s "at"; s "e"])).
  - vm_compute. symmetry.
    apply (Permutation_cons_append [ascii_of_nat 101; ascii_of_nat 97]
                                   (ascii_of_nat 116)).
  - intros w. rewrite !elem_of_cons, !elem_of_nil. tauto.
  - by left.
  - by right.
  - apply word_anagrams_word_centric_run. lia.
  - apply word_anagrams_word_list_centric_run. lia.
  - reflexivity.
  - reflexivity.
Defined.

(** X13.  No word of a returned sequence contains a whitespace
    character: a word list entry with whitespace in it never takes part
    in a result. *)
Theorem word_anagrams_no_whitespace (word : str) (word_list : list str)
    (method : string) (nprocs : Z) (r : run) (pop : list (list str)) :
  word_anagrams word word_list method nprocs r →
  result r = Return pop →
  ∀ wp w, wp ∈ pop → w ∈ wp → Forall (λ c, Py.isspace c = false) w.
Proof.
  intros Hr Hres wp w Hwp Hw.
  assert (method = "word_centric"%string ∨ method = "word_list_centric"%string)
    as Hm.
  { apply word_anagrams_inv in Hr. cbv zeta in Hr.
    destruct Hr as [(? & _)|[(? & _)|(_ & _ & ->)]]; [by left | by right |].
    done. }
  destruct (word_anagrams_elem_of _ _ _ _ _ Hm Hr) as (? & E & Hpop).
  rewrite Hres in E. injection E as <-.
  apply Hpop in Hwp as [_ [_ HP]].
  apply Forall_forall. intros c Hc.
  assert (c ∈ Py.join (Py.split word)) as Hin.
  { rewrite <- HP. eapply elem_of_submseteq; [exact Hc|].
    by apply part_submseteq_join. }
  rewrite join_split in Hin. by apply list_elem_of_filter in Hin as [? _].
Qed.

Lemma word_anagrams_no_whitespace_witness :
  ∃ pop, result (word_centric_run (s "e at") [s "e"; s "at"; s "e at"])
         = Return pop
         ∧ ∀ wp w, wp ∈ pop → w ∈ wp → Forall (λ c, Py.isspace c = false) w.
Proof.
  eexists. split; [reflexivity|].
  apply (word_anagrams_no_whitespace (s "e at") [s "e"; s "at"; s "e at"]
           "word_centric" 1
           (word_centric_run (s "e at") [s "e"; s "at"; s "e at"])).
  - apply word_anagrams_word_centric_run. lia.
  - reflexivity.
Defined.

(** X14.  [reduced_word_list] returns a subset of the word list that
    depends only on the letters of the word and on which strings occur in
    the word list: rearranging the word, or reordering the word list or
    repeating entries in it, does not change the result. *)
Theorem reduced_word_list_letters_only (word1 word2 : str)
    (word_list1 word_list2 : list str) :
  (∀ w, w ∈ reduced_word_list word1 word_list1 → w ∈ word_list1)
  ∧ (word1 ≡ₚ word2 → (∀ w, w ∈ word_list1 ↔ w ∈ word_list2) →
     reduced_word_list word1 word_list1 = reduced_word_list word2 word_list2).
Proof.
  split.
  - by intros w (? & _)%elem_of_reduced_word_list.
  - intros HP Hwl. apply set_eq. intros w.
    rewrite !elem_of_reduced_word_list, Hwl, HP. done.
Qed.

Lemma reduced_word_list_letters_only_witness :
  reduced_word_list (s "eat") [s "at"; s "e"]
  = reduced_word_list (s "tea") [s "e"; s "at"; s "e"].
Proof.
  apply (proj2 (reduced_word_list_letters_only (s "eat") (s "tea")
                  [s "at"; s "e"] [s "e"; s "at"; s "e"])).
  - vm_compute. symmetry.
    apply (Permutation_cons_append [ascii_of_nat 101; ascii_of_nat 97]
                                   (ascii_of_nat 116)).
  - intros w. rewrite !elem_of_cons, !elem_of_nil. tauto.
Defined.

(** ** Independence of the collection orders *)

Section schedules.
Implicit Types (word w : str) (word_list : list str) (wp : list str)
  (wls : gset str) (ds : list (list Z)) (pop : list (list str))
  (method : string) (nprocs : Z) (r : run).

Lemma bind_Permutation_ext {A B} (f g : A → list B) (l k : list A) :
  (∀ x, f x ≡ₚ g x) → l ≡ₚ k → l ≫= f ≡ₚ k ≫= g.
Proof.
  intros Hfg Hlk. rewrite <- Hlk. clear k Hlk.
  induction l as [|x l IH]; [done|].
  cbn. fold (mbind f l) (mbind g l). by rewrite Hfg, IH.
Qed.

Lemma product_Permutation {A} (bins1 bins2 : list (list A)) :
  Forall2 Permutation bins1 bins2 →
  Itertools.product bins1 ≡ₚ Itertools.product bins2.
Proof.
  induction 1 as [|b1 b2 bins1 bins2 Hb _ IH]; [done|].
  simpl. apply bind_Permutation_ext; [|done].
  intros x. by rewrite IH.
Qed.

Lemma join_fmap_Permutation {A B} (f g : A → list B) (l : list A) :
  (∀ x, f x ≡ₚ g x) → mjoin (f <$> l) ≡ₚ mjoin (g <$> l).
Proof.
  intros Hfg. rewrite !join_fmap_bind. by apply bind_Permutation_ext.
Qed.

Lemma dtas_Permutation (order1 order2 : list str) word (d : list Z) :
  order1 ≡ₚ order2 →
  dtas (bucket_by_length order1) word d
  ≡ₚ dtas (bucket_by_length order2) word d.
Proof.
  intros Ho. unfold dtas, div_to_anagrams, ip_to_word_partitions.
  apply filter_Permutation, product_Permutation.
  induction (div_to_integer_partition d (Z.of_nat (length word)))
    as [|j ip IH]; [done|].
  cbn. constructor; [|exact IH].
  rewrite !bucket_by_length_lookup. by apply filter_Permutation.
Qed.

Lemma anagrams_word_centric_runs word wls ds nprocs1 nprocs2 pop1 pop2 :
  anagrams_word_centric word wls ds nprocs1 pop1 →
  anagrams_word_centric word wls ds nprocs2 pop2 →
  pop1 ≡ₚ pop2.
Proof.
  intros ->%anagrams_word_centric_Permutation
         ->%anagrams_word_centric_Permutation. done.
Qed.

Lemma anagrams_word_list_centric_runs word wls ds nprocs1 nprocs2 pop1 pop2 :
  anagrams_word_list_centric word wls ds nprocs1 pop1 →
  anagrams_word_list_centric word wls ds nprocs2 pop2 →
  pop1 ≡ₚ pop2.
Proof.
  intros (o1 & Ho1 & ->)%anagrams_word_list_centric_Permutation
         (o2 & Ho2 & ->)%anagrams_word_list_centric_Permutation.
  apply join_fmap_Permutation. intros d. apply dtas_Permutation.
  unfold iterates in *. by rewrite Ho1, Ho2.
Qed.

Lemma word_anagrams_runs word word_list method nprocs1 nprocs2 r1 r2
    pop1 pop2 :
  word_anagrams word word_list method nprocs1 r1 →
  word_anagrams word word_list method nprocs2 r2 →
  result r1 = Return pop1 → result r2 = Return pop2 →
  pop1 ≡ₚ pop2.
Proof.
  intros H1%word_anagrams_inv H2%word_anagrams_inv E1 E2.
  cbv zeta in H1, H2.
  destruct H1 as [(Hm & p1 & Hr1 & ->)|[(Hm & p1 & Hr1 & ->)|(Hm & ? & ->)]];
    simpl in E1; try done; injection E1 as ->;
    destruct H2 as [(Hm' & p2 & Hr2 & ->)|[(Hm' & p2 & Hr2 & ->)|(Hm' & ? & ->)]];
    simpl in E2; try done; injection E2 as ->; try congruence.
  - by eapply anagrams_word_centric_runs.
  - by eapply anagrams_word_list_centric_runs.
Qed.

End schedules.

(** X15.  What a strategy returns does not depend, up to the order of the
    list, on the number of processes, on the order in which the pool
    hands results back, or on the order in which the set of words is
    visited: any two calls of the same strategy on the same word, set and
    dividers return lists that are rearrangements of each other. *)
Theorem strategies_order_independent (word : str) (word_list_set : gset str)
    (dividers : list (list Z)) (nprocs1 nprocs2 : Z)
    (pop1 pop2 : list (list str)) :
  (anagrams_word_centric word word_list_set dividers nprocs1 pop1 →
   anagrams_word_centric word word_list_set dividers nprocs2 pop2 →
   pop1 ≡ₚ pop2)
  ∧ (anagrams_word_list_centric word word_list_set dividers nprocs1 pop1 →
     anagrams_word_list_centric word word_list_set dividers nprocs2 pop2 →
     pop1 ≡ₚ pop2).
Proof.
  split.
  - apply anagrams_word_centric_runs.
  - apply anagrams_word_list_centric_runs.
Qed.

Lemma strategies_order_independent_witness :
  [[s "e"; s "at"]; [s "at"; s "e"]] ≡ₚ [[s "at"; s "e"]; [s "e"; s "at"]].
Proof.
  apply (proj2 (strategies_order_independent (s "eat") {[ s "e"; s "at" ]}
                  [[1]; [2]] 1 4 [[s "e"; s "at"]; [s "at"; s "e"]]
                  [[s "at"; s "e"]; [s "e"; s "at"]])).
  - exists (elements ({[ s "e"; s "at" ]} : gset str)).
    split; [by unfold iterates|]. vm_compute. reflexivity.
  - exists (elements ({[ s "e"; s "at" ]} : gset str)).
    split; [by unfold iterates|]. cbv zeta.
    rewrite bool_decide_eq_false_2 by lia.
    exists [[[s "at"; s "e"]]; [[s "e"; s "at"]]]. split; [|reflexivity].
    unfold imap_unordered. vm_compute. apply perm_swap.
Defined.

(** ** Repeated letters and repeated results *)

Section distinct_letters.
Implicit Types (word p w : str) (wp : list str) (wls : gset str)
  (pop : list (list str)) (nprocs : Z).

Lemma picks_fst {A} (l : list A) : (Itertools.picks l).*1 = l.
Proof.
  induction l as [|x l IH]; [done|].
  simpl. f_equal. rewrite <- list_fmap_compose.
  rewrite <- IH at 2. apply list_fmap_ext. by intros _ [??] _.
Qed.

Lemma picks_rest_unique {A} (l : list A) (x : A) (rest1 rest2 : list A) :
  NoDup l → (x, rest1) ∈ Itertools.picks l → (x, rest2) ∈ Itertools.picks l →
  rest1 = rest2.
Proof.
  intros Hl H1 H2.
  assert (NoDup (Itertools.picks l).*1) as Hnd by by rewrite picks_fst.
  apply list_elem_of_lookup in H1 as [i1 H1].
  apply list_elem_of_lookup in H2 as [i2 H2].
  assert (i1 = i2) as ->.
  { eapply NoDup_lookup; [exact Hnd | |].
    - by rewrite list_lookup_fmap, H1.
    - by rewrite list_lookup_fmap, H2. }
  congruence.
Qed.

Lemma NoDup_permutations {A} (l : list A) (r : nat) :
  NoDup l → NoDup (Itertools.permutations l r).
Proof.
  revert l. induction r as [|r IH]; intros l Hl; simpl.
  - apply NoDup_singleton.
  - apply NoDup_bind.
    + intros [x1 rest1] [x2 rest2] p H1 H2
        (p1 & -> & _)%list_elem_of_fmap (p2 & [= -> _] & _)%list_elem_of_fmap.
      f_equal. by eapply picks_rest_unique.
    + intros [x rest] Hin. apply NoDup_fmap_2; [by intros ?? [= ->]|].
      apply IH. apply elem_of_picks_Permutation in Hin.
      rewrite Hin in Hl. by apply NoDup_cons in Hl as [_ ?].
    + apply (NoDup_fmap_1 fst). by rewrite picks_fst.
Qed.

Lemma NoDup_word_permutations word :
  NoDup word → NoDup (word_permutations word).
Proof.
  intros Hw. unfold word_permutations. apply NoDup_fmap_2_strong.
  - intros p1 p2 [_ H1]%elem_of_permutations [_ H2]%elem_of_permutations E.
    apply submseteq_fmap_inv in H1 as (v1 & -> & _).
    apply submseteq_fmap_inv in H2 as (v2 & -> & _).
    fold (Py.chars v1) (Py.chars v2) in *. rewrite !join_chars in E.
    by rewrite E.
  - apply NoDup_permutations. unfold Py.chars.
    apply NoDup_fmap_2; [by intros ?? [= ->] | done].
Qed.

Lemma NoDup_owas word wls p :
  p ≡ₚ word → NoDup (owas wls (dividers_of (length word)) p).
Proof.
  intros Hp. unfold owas, ordered_word_anagrams, dividers_to_word_partitions.
  apply NoDup_filter, NoDup_fmap_2_strong; [|apply NoDup_dividers_of].
  intros d1 d2 H1%dividers_of_valid H2%dividers_of_valid E.
  rewrite <- (Permutation_length Hp) in H1, H2.
  apply (div_to_integer_partition_inj (Z.of_nat (length p))).
  rewrite <- !div_word_partitions_lengths by done. by rewrite E.
Qed.

Lemma NoDup_anagrams_word_centric word wls nprocs pop :
  NoDup word →
  anagrams_word_centric word wls (dividers_of (length word)) nprocs pop →
  NoDup pop.
Proof.
  intros Hw ->%anagrams_word_centric_Permutation.
  apply NoDup_join_fmap.
  - intros p1 p2 wp Hp1%elem_of_word_permutations
      Hp2%elem_of_word_permutations
      [(d1 & Hd1%dividers_of_valid & E1) _]%elem_of_owas
      [(d2 & Hd2%dividers_of_valid & E2) _]%elem_of_owas.
    rewrite <- (Permutation_length Hp1) in Hd1.
    rewrite <- (Permutation_length Hp2) in Hd2.
    rewrite <- (div_word_partitions_join p1 d1 Hd1).
    rewrite <- (div_word_partitions_join p2 d2 Hd2). congruence.
  - intros p Hp%elem_of_word_permutations. by apply NoDup_owas.
  - by apply NoDup_word_permutations.
Qed.

Lemma NoDup_anagrams_word_list_centric word wls nprocs pop :
  anagrams_word_list_centric word wls (dividers_of (length word)) nprocs pop →
  NoDup pop.
Proof.
  intros (order & Ho & ->)%anagrams_word_list_centric_Permutation.
  apply NoDup_join_fmap.
  - intros d1 d2 wp _ _
      [[_ E1]%Forall2_member_length _]%(elem_of_dtas wls)
      [[_ E2]%Forall2_member_length _]%(elem_of_dtas wls);
      [|done..].
    apply (div_to_integer_partition_inj (Z.of_nat (length word))).
    congruence.
  - intros d _. unfold dtas, div_to_anagrams, ip_to_word_partitions.
    apply NoDup_filter, NoDup_product, Forall_fmap, Forall_forall.
    intros j _. by apply (NoDup_bucket wls).
  - apply NoDup_dividers_of.
Qed.

End distinct_letters.

(** X16.  For a word whose letters are pairwise distinct, the
    word-centric strategy on the dividers of the word returns no word
    sequence twice, for any number of processes; it then returns the same
    sequences the same number of times as the dictionary-centric
    strategy: the two lists are rearrangements of each other. *)
Theorem word_centric_distinct_letters (word : str) (word_list_set : gset str)
    (nprocs1 nprocs2 : Z) (pop1 pop2 : list (list str)) :
  NoDup word →
  anagrams_word_centric word word_list_set (dividers_of (length word))
                        nprocs1 pop1 →
  NoDup pop1
  ∧ (anagrams_word_list_centric word word_list_set
       (dividers_of (length word)) nprocs2 pop2 →
     pop1 ≡ₚ pop2).
Proof.
  intros Hw H1.
  pose proof (NoDup_anagrams_word_centric _ _ _ _ Hw H1) as Hnd.
  split; [done|]. intros H2.
  apply NoDup_Permutation; [done | by eapply NoDup_anagrams_word_list_centric|].
  intros wp.
  rewrite (elem_of_anagrams_word_centric _ _ _ _ _ _ H1).
  rewrite (elem_of_anagrams_word_list_centric _ _ _ _ _ _ H2).
  apply accepts_iff, dividers_of_Forall.
Qed.

Lemma word_centric_distinct_letters_witness :
  NoDup (mjoin (owas {[ s "e"; s "at" ]} (dividers_of (length (s "eat")))
                  <$> word_permutations (s "eat"))).
Proof.
  refine (proj1 (word_centric_distinct_letters (s "eat") {[ s "e"; s "at" ]}
                   1 1 _ [] _ _)).
  - apply (bool_decide_unpack _). vm_compute. exact I.
  - unfold anagrams_word_centric. rewrite bool_decide_eq_true_2 by lia.
    reflexivity.
Defined.

(** A repeated letter makes the word-centric strategy repeat its
    results, which the dictionary-centric strategy does not do. *)
Example word_centric_repeats :
  mjoin (owas {[ s "a" ]} (dividers_of 2) <$> word_permutations (s "aa"))
  = [[s "a"; s "a"]; [s "a"; s "a"]]
  ∧ mjoin (dtas (bucket_by_length [s "a"]) (s "aa") <$> dividers_of 2)
    = [[s "a"; s "a"]].
Proof. split; vm_compute; reflexivity. Qed.

(** ** The comparable form as a canonical key *)

(** X17.  [wp_to_comparable_form] returns the letters of all the words of
    the sequence, each as often as it occurs, in ascending order of code
    point; taking the comparable form of the result again changes
    nothing. *)
Theorem wp_to_comparable_form_sorted (wp : list str) :
  StronglySorted Py.char_le (wp_to_comparable_form wp)
  ∧ wp_to_comparable_form wp ≡ₚ Py.join wp
  ∧ wp_to_comparable_form [wp_to_comparable_form wp]
    = wp_to_comparable_form wp.
Proof.
  rewrite !wp_to_comparable_form_sort. split_and!.
  - apply (@StronglySorted_merge_sort _ Py.char_le _ char_le_trans
             char_le_total).
  - apply merge_sort_Permutation.
  - apply merge_sort_char_eq. cbn. rewrite app_nil_r.
    apply merge_sort_Permutation.
Qed.

(** ** The text written by [main] *)

Section main_text.

#[local] Instance str_le_total : Total str_le.
Proof.
  intros a. induction a as [|x a IH]; intros [|y b]; simpl; try tauto.
  destruct (decide (x = y)) as [->|Hne].
  - destruct (IH b); [left | right]; by right.
  - assert (N_of_ascii x ≠ N_of_ascii y) as Hn.
    { intros E. apply Hne.
      by rewrite <- (ascii_N_embedding x), <- (ascii_N_embedding y), E. }
    destruct (N.lt_total (N_of_ascii x) (N_of_ascii y)) as [?|[?|?]];
      [left; by left | done | right; by left].
Qed.

#[local] Instance str_le_trans : Transitive str_le.
Proof.
  intros a. induction a as [|x a IH]; intros [|y b] [|z c]; simpl; try tauto.
  intros [Hxy|[-> Hab]] [Hyz|[-> Hbc]].
  - left. lia.
  - by left.
  - by left.
  - right. split; [done|]. by eapply IH.
Qed.

#[local] Instance str_le_antisym : AntiSymm (=) str_le.
Proof.
  intros a. induction a as [|x a IH]; intros [|y b]; simpl; try tauto.
  intros [Hxy|[-> Hab]] [Hyx|[E Hba]]; try lia.
  - subst. lia.
  - f_equal. by apply IH.
Qed.

Lemma sort_strings_Permutation (l1 l2 : list str) :
  l1 ≡ₚ l2 → sort_strings l1 = sort_strings l2.
Proof.
  intros HP. unfold sort_strings. apply (Sorted_unique str_le).
  - apply Sorted_merge_sort, _.
  - apply Sorted_merge_sort, _.
  - by rewrite !merge_sort_Permutation.
Qed.

Lemma main_text_Permutation (anagrams1 anagrams2 : list (list str)) :
  anagrams1 ≡ₚ anagrams2 → main_text anagrams1 = main_text anagrams2.
Proof.
  intros HP. unfold main_text. f_equal.
  apply sort_strings_Permutation. by rewrite HP.
Qed.

End main_text.

(** X18.  The text that [main] writes is the same for every number of
    processes: for a given word, word list and method, whatever list
    [word_anagrams] returns, joining each sequence with spaces, sorting
    the lines and joining them with newlines gives one and the same
    text. *)
Theorem main_text_order_independent (word : str) (word_list : list str)
    (method : string) (nprocs1 nprocs2 : Z) (r1 r2 : run)
    (pop1 pop2 : list (list str)) :
  word_anagrams word word_list method nprocs1 r1 →
  word_anagrams word word_list method nprocs2 r2 →
  result r1 = Return pop1 → result r2 = Return pop2 →
  main_text pop1 = main_text pop2.
Proof.
  intros H1 H2 E1 E2. apply main_text_Permutation.
  exact (word_anagrams_runs _ _ _ _ _ _ _ _ _ H1 H2 E1 E2).
Qed.

Lemma main_text_order_independent_witness :
  word_anagrams (s "eat") eat_word_list "word_list_centric" 1
                (word_list_centric_run (s "eat") eat_word_list)
  ∧ ∀ r2 pop1 pop2,
      word_anagrams (s "eat") eat_word_list "word_list_centric" 8 r2 →
      result (word_list_centric_run (s "eat") eat_word_list) = Return pop1 →
      result r2 = Return pop2 →
      main_text pop1 = main_text pop2.
Proof.
  assert (word_anagrams (s "eat") eat_word_list "word_list_centric" 1
            (word_list_centric_run (s "eat") eat_word_list)) as H1
    by (apply word_anagrams_word_list_centric_run; lia).
  split; [exact H1|]. intros r2 pop1 pop2 H2.
  exact (main_text_order_independent (s "eat") eat_word_list
           "word_list_centric" 1 8
           (word_list_centric_run (s "eat") eat_word_list) r2 pop1 pop2
           H1 H2).
Defined.

Example main_text_eat :
  main_text [[s "t"; s "ea"]; [s "e"; s "at"]; [s "at"; s "e"]]
  = s "at e" ++ [ascii_of_nat 10] ++ s "e at" ++ [ascii_of_nat 10] ++ s "t ea".
Proof. vm_compute. reflexivity. Qed.

(** ** The caller [anagram_prob_01] *)

Section anagram_prob.
Implicit Types (word : str) (word_list : list str)
  (anagrams : list (list str)) (method : string) (nprocs : Z).

Lemma first_two_word_None anagrams :
  first_two_word anagrams = None
  ↔ ∀ pa, pa ∈ anagrams → length pa ≠ 2%nat.
Proof.
  unfold first_two_word. rewrite head_None. split.
  - intros E pa Hpa Hl.
    assert (pa ∈ filter (λ pa, length pa = 2%nat) anagrams) as Hin
      by by apply list_elem_of_filter.
    rewrite E in Hin. by apply elem_of_nil in Hin.
  - intros H. apply elem_of_nil_inv. intros pa [Hl Hpa]%list_elem_of_filter.
    by apply (H pa).
Qed.

Lemma first_two_word_Some anagrams pa :
  first_two_word anagrams = Some pa → pa ∈ anagrams ∧ length pa = 2%nat.
Proof.
  unfold first_two_word. intros E.
  assert (pa ∈ filter (λ pa, length pa = 2%nat) anagrams) as Hin.
  { destruct (filter _ anagrams) as [|x l]; [done|].
    injection E as ->. left. }
  apply list_elem_of_filter in Hin. tauto.
Qed.

Lemma max_fold anagrams (best : list str) :
  let m := foldl (λ best x,
                    if bool_decide (length best < length x)%nat
                    then x else best) best anagrams in
  (m = best ∨ m ∈ anagrams)
  ∧ (length best ≤ length m)%nat
  ∧ ∀ a, a ∈ anagrams → (length a ≤ length m)%nat.
Proof.
  revert best. induction anagrams as [|x l IH]; intros best; simpl.
  - split_and!; [by left | done |]. by intros a ?%elem_of_nil.
  - case_bool_decide as Hlt.
    + destruct (IH x) as (Hm & Hle & Hall). split_and!.
      * destruct Hm as [->|?]; right; [left | by right].
      * lia.
      * intros a [->|Ha]%elem_of_cons; [done | by apply Hall].
    + destruct (IH best) as (Hm & Hle & Hall). split_and!.
      * destruct Hm as [->|?]; [by left | right; by right].
      * done.
      * intros a [->|Ha]%elem_of_cons; [lia | by apply Hall].
Qed.

Lemma max_by_len_Some anagrams m :
  max_by_len anagrams = Some m →
  m ∈ anagrams ∧ ∀ a, a ∈ anagrams → (length a ≤ length m)%nat.
Proof.
  destruct anagrams as [|x l]; [done|]. simpl. intros [= <-].
  destruct (max_fold l x) as (Hm & Hle & Hall). split.
  - destruct Hm as [->|?]; [left | by right].
  - intros a [->|Ha]%elem_of_cons; [done | by apply Hall].
Qed.

Lemma max_by_len_None anagrams : max_by_len anagrams = None → anagrams = [].
Proof. by destruct anagrams. Qed.

Lemma anagram_prob_01_total word word_list method nprocs :
  ∃ res, anagram_prob_01 word word_list method nprocs res.
Proof.
  destruct (word_anagrams_total word word_list method nprocs) as [r Hr].
  unfold anagram_prob_01.
  destruct (result r) as [anagrams|e] eqn:E.
  - destruct (first_two_word anagrams) as [two|] eqn:E2.
    + destruct (max_by_len anagrams) as [most|] eqn:E3.
      * eexists. exists r. split; [done|]. rewrite E, E2, E3. reflexivity.
      * eexists. exists r. split; [done|]. rewrite E, E2, E3. reflexivity.
    + eexists. exists r. split; [done|]. rewrite E, E2. reflexivity.
  - eexists. exists r. split; [done|]. rewrite E. reflexivity.
Qed.

End anagram_prob.

(** X19.  [anagram_prob_01], called with one of the two methods, never
    raises.  It returns the pair of empty strings exactly when no two
    words of the word list together use the letters of the word, also
    when anagrams of three or more words exist.  Otherwise it returns the
    space-joined words of an anagram with the largest number of words and
    the space-joined words of an anagram of two words.  With any other
    method it raises the [KeyError] of [word_anagrams]. *)
Theorem anagram_prob_01_spec (word : str) (word_list : list str)
    (method : string) (nprocs : Z) :
  (∃ res, anagram_prob_01 word word_list method nprocs res)
  ∧ (method ≠ "word_centric"%string → method ≠ "word_list_centric"%string →
     ∀ res, anagram_prob_01 word word_list method nprocs res
            → res = ProbRaise (KeyError method))
  ∧ (method = "word_centric"%string ∨ method = "word_list_centric"%string →
     ∀ res, anagram_prob_01 word word_list method nprocs res →
       (res = ProbReturn [] []
        ∧ ∀ w1 w2, ¬ is_anagram (Py.join (Py.split word)) word_list [w1; w2])
       ∨ ∃ most two,
           res = ProbReturn (join_sep [ascii_of_nat 32] most)
                            (join_sep [ascii_of_nat 32] two)
           ∧ length two = 2%nat
           ∧ is_anagram (Py.join (Py.split word)) word_list two
           ∧ is_anagram (Py.join (Py.split word)) word_list most
           ∧ ∀ wp, is_anagram (Py.join (Py.split word)) word_list wp →
                   (length wp ≤ length most)%nat).
Proof.
  split_and!.
  - apply anagram_prob_01_total.
  - intros H1 H2 res (r & Hr & Hres).
    apply word_anagrams_inv in Hr. cbv zeta in Hr.
    destruct Hr as [(? & _)|[(? & _)|(_ & _ & ->)]]; done.
  - intros Hm res (r & Hr & Hres).
    destruct (word_anagrams_elem_of _ _ _ _ _ Hm Hr) as (pop & E & Hpop).
    rewrite E in Hres.
    destruct (first_two_word pop) as [two|] eqn:E2.
    + right. apply first_two_word_Some in E2 as [Htwo Hl2].
      destruct (max_by_len pop) as [most|] eqn:E3.
      * apply max_by_len_Some in E3 as [Hmost Hmax].
        exists most, two. split_and!; [done | done | | |].
        -- by apply Hpop in Htwo as [_ ?].
        -- by apply Hpop in Hmost as [_ ?].
        -- intros wp Hwp.
           apply Hpop in Hmost as Hmost'. destruct Hmost' as [Hge _].
           destruct (decide (2 ≤ length wp)%nat) as [Hlen|Hlen]; [|lia].
           apply Hmax, Hpop. done.
      * apply max_by_len_None in E3. subst pop. by apply elem_of_nil in Htwo.
    + left. split; [done|]. intros w1 w2 Han.
      pose proof (proj1 (first_two_word_None pop) E2 [w1; w2]) as Hno.
      apply Hno; [|done]. apply Hpop. split; [simpl; lia | done].
Qed.

Lemma anagram_prob_01_spec_witness :
  (ProbReturn [] [] = ProbReturn [] []
   ∧ ∀ w1 w2, ¬ is_anagram (Py.join (Py.split (s "abc")))
                            [s "a"; s "b"; s "c"] [w1; w2])
  ∨ ∃ most two,
      ProbReturn [] [] = ProbReturn (join_sep [ascii_of_nat 32] most)
                                    (join_sep [ascii_of_nat 32] two)
      ∧ length two = 2%nat
      ∧ is_anagram (Py.join (Py.split (s "abc"))) [s "a"; s "b"; s "c"] two
      ∧ is_anagram (Py.join (Py.split (s "abc"))) [s "a"; s "b"; s "c"] most
      ∧ ∀ wp, is_anagram (Py.join (Py.split (s "abc")))
                         [s "a"; s "b"; s "c"] wp →
              (length wp ≤ length most)%nat.
Proof.
  apply (proj2 (proj2 (anagram_prob_01_spec (s "abc") [s "a"; s "b"; s "c"]
                         "word_centric" 1)) (or_introl eq_refl)).
  exists (word_centric_run (s "abc") [s "a"; s "b"; s "c"]).
  split; [apply word_anagrams_word_centric_run; lia|].
  vm_compute. reflexivity.
Defined.

(** Three single letters: six anagrams of three words, none of two, and
    the answer is the pair of empty strings. *)
Example anagram_prob_01_abc :
  anagram_prob_01 (s "abc") [s "a"; s "b"; s "c"] "word_centric" 1
                  (ProbReturn [] []).
Proof.
  exists (word_centric_run (s "abc") [s "a"; s "b"; s "c"]).
  split; [apply word_anagrams_word_centric_run; lia|].
  vm_compute. reflexivity.
Qed.

(** X20.  On the dividers of the word the dictionary-centric strategy
    returns no word sequence twice, for every number of processes and
    every order in which the set of words is visited. *)
Theorem word_list_centric_NoDup_any (word : str) (word_list_set : gset str)
    (nprocs : Z) (pop : list (list str)) :
  anagrams_word_list_centric word word_list_set (dividers_of (length word))
                             nprocs pop →
  NoDup pop.
Proof. apply NoDup_anagrams_word_list_centric. Qed.

Lemma word_list_centric_NoDup_any_witness :
  NoDup [[s "at"; s "e"]; [s "e"; s "at"]].
Proof.
  apply (word_list_centric_NoDup_any (s "eat") {[ s "e"; s "at" ]} 4).
  exists (elements ({[ s "e"; s "at" ]} : gset str)).
  split; [by unfold iterates|]. cbv zeta.
  rewrite bool_decide_eq_false_2 by lia.
  exists [[]; [[s "at"; s "e"]]; [[s "e"; s "at"]]; []].
  split; [|reflexivity].
  unfold imap_unordered. vm_compute.
  apply perm_skip, perm_swap.
Defined.
